(** * system-design API: the cache and the job queue

    A shallow embedding of [api/app/caching.py], [api/app/queue.py] and the
    part of [api/app/settings.py] they read, with the properties of the
    design document stated and settled against it.

    Conventions.
    - A Python exception is a value of [exn]; code that can raise returns an
      [outcome], threaded with the bind notation of stdpp.
    - [time.time()] is an input of each operation that reads the clock: a
      float. The interpreter's floats are a parameter ([FloatOps]): their
      addition, their order and the conversion of an integer, which raises
      [OverflowError] beyond their range. IEEE 754 binary64 is the instance
      the examples run on.
    - The [asyncio.Lock] of the in-process cache makes [get] and [set] atomic:
      each is one function from store to store. *)

From Stdlib Require Import SpecFloat.
From stdpp Require Import base tactics option list numbers strings gmap pretty sorting.

Open Scope Z_scope.

(** ** Exceptions and results *)

Inductive exn : Type :=
  | KeyError (msg : string)
  | RuntimeError (msg : string)
  | ValueError (msg : string)
  | OverflowError (msg : string)
  | TypeError (msg : string)
  | CancelledError.

(** [repr(s)] of a string: in single quotes, or in double quotes when the
    string holds a single quote and no double quote; backslash, the quote
    and control characters escaped. Bytes above 127 are the UTF-8 of
    characters taken to be printable and are kept. *)
Definition hex_digit (n : N) : Ascii.ascii :=
  Ascii.ascii_of_N (if (n <? 10)%N then 48 + n else 87 + n).

Definition backslash : Ascii.ascii := Ascii.ascii_of_N 92.
Definition double_quote : Ascii.ascii := Ascii.ascii_of_N 34.
Definition single_quote : Ascii.ascii := Ascii.ascii_of_N 39.

Definition repr_char (quote : Ascii.ascii) (a : Ascii.ascii) : string :=
  let n := Ascii.N_of_ascii a in
  if decide (a = backslash) then String backslash (String backslash "")
  else if decide (a = quote) then String backslash (String a "")
  else if (n =? 9)%N then String backslash "t"
  else if (n =? 10)%N then String backslash "n"
  else if (n =? 13)%N then String backslash "r"
  else if ((n <? 32) || (n =? 127))%N
       then String backslash
              ("x" +:+ String (hex_digit (n / 16)) (String (hex_digit (n mod 16)) ""))
  else String a "".

Fixpoint repr_body (quote : Ascii.ascii) (s : string) : string :=
  match s with
  | EmptyString => EmptyString
  | String a s' => repr_char quote a +:+ repr_body quote s'
  end.

Fixpoint has_char (a : Ascii.ascii) (s : string) : bool :=
  match s with
  | EmptyString => false
  | String b s' => bool_decide (a = b) || has_char a s'
  end.

Definition py_repr (s : string) : string :=
  let quote :=
    if has_char single_quote s && negb (has_char double_quote s)
    then double_quote else single_quote in
  String quote (repr_body quote s +:+ String quote "").

(** [str(exc)]: the message, but for a [KeyError] the [repr] of its key *)
Definition exn_str (e : exn) : string :=
  match e with
  | KeyError m => py_repr m
  | RuntimeError m => m
  | ValueError m => m
  | OverflowError m => m
  | TypeError m => m
  | CancelledError => ""
  end.

(** [isinstance(exc, Exception)]: [asyncio.CancelledError] derives from
    [BaseException] only, so [except Exception] lets it through. *)
Definition is_Exception (e : exn) : bool :=
  match e with
  | CancelledError => false
  | _ => true
  end.

Inductive outcome (A : Type) : Type :=
  | Ok (a : A)
  | Raise (e : exn).
Arguments Ok {A} a.
Arguments Raise {A} e.

#[global] Instance outcome_ret : MRet outcome := λ A a, Ok a.
#[global] Instance outcome_bind : MBind outcome := λ A B f m,
  match m with
  | Ok a => f a
  | Raise e => Raise e
  end.

Definition is_Ok {A} (r : outcome A) : bool :=
  match r with Ok _ => true | Raise _ => false end.

(** ** The interpreter's floats *)

Module PyFloat.

(** Addition, the order [<=], and the conversion of an [int], which fails
    when the integer is out of range. *)
Class FloatOps (float : Type) : Type := {
  float_add : float → float → float;
  float_of_int : Z → option float;
  float_le : float → float → bool
}.

(** IEEE 754 binary64, the interpreter's [float]. *)
Definition binary64_of_int (z : Z) : option spec_float :=
  match binary_normalize 53 1024 z 0 false with
  | S754_infinity _ => None
  | f => Some f
  end.

(** The float that stands for an integer within range. *)
Definition binary64 (z : Z) : spec_float := binary_normalize 53 1024 z 0 false.

#[global] Instance binary64_ops : FloatOps spec_float :=
  {| float_add := SFadd 53 1024; float_of_int := binary64_of_int; float_le := SFleb |}.

(** [float(z)], as arithmetic on a float and an [int] applies it *)
Definition to_float {float : Type} `{!FloatOps float} (z : Z) : outcome float :=
  match float_of_int z with
  | Some f => Ok f
  | None => Raise (OverflowError "int too large to convert to float")
  end.

End PyFloat.

(** ** settings.py: the fields read by the cache and the queue *)

Module Settings.

Record Settings : Type := mkSettings {
  cache_backend : string;
  cache_ttl_seconds : Z;
  redis_url : option string;
  queue_worker_concurrency : Z
}.

Definition default_settings : Settings :=
  {| cache_backend := "memory";
     cache_ttl_seconds := 60;
     redis_url := None;
     queue_worker_concurrency := 2 |}.

End Settings.

(** ** caching.py *)

Module Caching.

Import Settings.

Export PyFloat.

Section Cache.

(** The cached values are opaque to the cache. *)
Context {V float : Type} `{!FloatOps float}.

(** [_Entry]: a value and an optional absolute expiry instant. *)
Record _Entry : Type := mk_Entry {
  value : V;
  expires_at : option float
}.

(** [e.expires_at is not None and e.expires_at <= now] *)
Definition expired (now : float) (e : _Entry) : bool :=
  match expires_at e with
  | Some t => float_le t now
  | None => false
  end.

(** *** OrderedDict

    The bindings in insertion order, oldest first. A dictionary holds each
    key once ([od_wf]). *)

#[local] Abbreviation odict := (list (string * _Entry)).

Definition od_wf (d : odict) : Prop := NoDup (d.*1).

(** The entries that have not expired when the clock reads [now]. *)
Definition live (now : float) (d : odict) : odict :=
  filter (λ b, expired now b.2 = false) d.

(** [d.get(k)], the binding of [k] if any *)
Fixpoint od_lookup (k : string) (d : odict) : option _Entry :=
  match d with
  | [] => None
  | (k', e) :: d' => if decide (k' = k) then Some e else od_lookup k d'
  end.

(** [k in d] *)
Definition od_contains (k : string) (d : odict) : bool :=
  bool_decide (is_Some (od_lookup k d)).

(** [del d[k]] where present *)
Fixpoint od_remove (k : string) (d : odict) : odict :=
  match d with
  | [] => []
  | (k', e) :: d' => if decide (k' = k) then d' else (k', e) :: od_remove k d'
  end.

(** [d.pop(k)]: raises [KeyError] for a missing key *)
Definition od_pop (k : string) (d : odict) : outcome (_Entry * odict) :=
  match od_lookup k d with
  | Some e => Ok (e, od_remove k d)
  | None => Raise (KeyError k)
  end.

(** [d.pop(k, None)]: never raises *)
Definition od_pop_default (k : string) (d : odict) : odict :=
  od_remove k d.

(** [d[k] = e]: a present key keeps its position, a new key goes last *)
Fixpoint od_setitem (k : string) (e : _Entry) (d : odict) : odict :=
  match d with
  | [] => [(k, e)]
  | (k', e') :: d' =>
      if decide (k' = k) then (k, e) :: d' else (k', e') :: od_setitem k e d'
  end.

(** [d.popitem(last=False)]: raises [KeyError] on an empty dictionary *)
Definition od_popitem_first (d : odict) : outcome ((string * _Entry) * odict) :=
  match d with
  | [] => Raise (KeyError "dictionary is empty")
  | b :: d' => Ok (b, d')
  end.

(** *** MemoryTTLCache *)

Record MemoryTTLCache : Type := mkCache {
  _store : odict;
  _max_items : Z
}.

(** [MemoryTTLCache(max_items)] *)
Definition new_cache (max_items : Z) : MemoryTTLCache :=
  {| _store := []; _max_items := max_items |}.

Definition default_max_items : Z := 1024.

(** [_evict_if_needed]: [while len(store) > max_items: store.popitem(last=False)].
    Every iteration pops the head, so the loop is a recursion on the store;
    the empty case is [popitem] raising on an empty dictionary. *)
Fixpoint evict_loop (max_items : Z) (d : odict) : outcome odict :=
  if bool_decide (Z.of_nat (length d) > max_items) then
    match d with
    | [] => Raise (KeyError "dictionary is empty")
    | _ :: d' => evict_loop max_items d'
    end
  else Ok d.

Definition _evict_if_needed (c : MemoryTTLCache) : outcome MemoryTTLCache :=
  d ← evict_loop (_max_items c) (_store c);
  mret {| _store := d; _max_items := _max_items c |}.

(** [_purge_expired]: collect the keys of the expired entries, then pop
    each of them. *)
Definition keys_to_delete (now : float) (d : odict) : list string :=
  (filter (λ b, expired now b.2 = true) d).*1.

Definition _purge_expired (now : float) (c : MemoryTTLCache) : MemoryTTLCache :=
  {| _store := foldl (λ d k, od_pop_default k d) (_store c) (keys_to_delete now (_store c));
     _max_items := _max_items c |}.

(** [get(key)], called when the clock reads [now] *)
Definition get (now : float) (key : string) (c : MemoryTTLCache)
  : outcome (option V * MemoryTTLCache) :=
  let c := _purge_expired now c in
  if od_contains key (_store c) then
    '(entry, d) ← od_pop key (_store c);
    (* move to end for LRU behavior *)
    let d := od_setitem key entry d in
    mret (Some (value entry), {| _store := d; _max_items := _max_items c |})
  else mret (None, c).

(** The truth value of an [Optional[int]]: [None] and [0] are false. *)
Definition truthy (ttl_seconds : option Z) : bool :=
  match ttl_seconds with
  | Some t => negb (t =? 0)
  | None => false
  end.

(** [time.time() + ttl_seconds if ttl_seconds else None]: the sum of the
    float clock and an [int] converts the [int] to a float first, and that
    raises [OverflowError] for an integer beyond the floats' range. *)
Definition expiry_of (now : float) (ttl_seconds : option Z) : outcome (option float) :=
  if truthy ttl_seconds then
    t ← to_float (default 0 ttl_seconds);
    mret (Some (float_add now t))
  else mret None.

(** [set(key, value, ttl_seconds)], called when the clock reads [now]. The
    expiry instant is computed before the lock is taken: when that raises,
    the store is not touched. *)
Definition set (now : float) (key : string) (v : V) (ttl_seconds : option Z)
    (c : MemoryTTLCache) : outcome MemoryTTLCache :=
  expires_at ← expiry_of now ttl_seconds;
  d ← (if od_contains key (_store c)
       then '(_, d) ← od_pop key (_store c); mret d
       else mret (_store c));
  let d := od_setitem key {| value := v; expires_at := expires_at |} d in
  _evict_if_needed {| _store := d; _max_items := _max_items c |}.

(** A sequence of timed operations on one cache. *)
Inductive op : Type :=
  | OpGet (now : float) (key : string)
  | OpSet (now : float) (key : string) (v : V) (ttl_seconds : option Z).

Definition run_op (o : op) (c : MemoryTTLCache) : outcome MemoryTTLCache :=
  match o with
  | OpGet now key => '(_, c') ← get now key c; mret c'
  | OpSet now key v ttl => set now key v ttl c
  end.

(** The caches after each operation of the sequence, in order. *)
Fixpoint run_ops (os : list op) (c : MemoryTTLCache) : outcome (list MemoryTTLCache) :=
  match os with
  | [] => mret []
  | o :: os' =>
      c' ← run_op o c;
      cs ← run_ops os' c';
      mret (c' :: cs)
  end.

(** *** The design's side

    The ttl arguments that [set] completes on: absent, zero, or an integer
    that converts to a float. *)
Definition ttl_fits (ttl_seconds : option Z) : Prop :=
  ∀ t, ttl_seconds = Some t → t ≠ 0 → is_Some (float_of_int (float:=float) t).





(** A [get], or a [set] whose ttl is one of those. *)
Definition op_fits (o : op) : Prop :=
  match o with
  | OpGet _ _ => True
  | OpSet _ _ _ ttl => ttl_fits ttl
  end.


End Cache.

Arguments _Entry : clear implicits.
Arguments MemoryTTLCache : clear implicits.
Arguments op : clear implicits.

Abbreviation odict V float := (list (string * _Entry V float)).

(** [str.lower()]. The strings here are byte strings; the letters A-Z are
    mapped and every other byte is kept. The result is only ever compared
    with the ASCII word "redis", and no character outside ASCII lowers to
    one of its letters, so the comparison agrees with the interpreter's. *)
Definition lower_ascii (a : Ascii.ascii) : Ascii.ascii :=
  let n := Ascii.N_of_ascii a in
  if ((65 <=? n) && (n <=? 90))%N then Ascii.ascii_of_N (n + 32) else a.

Fixpoint lower (s : string) : string :=
  match s with
  | EmptyString => EmptyString
  | String a s' => String (lower_ascii a) (lower s')
  end.

(** The truth value of an [Optional[str]]: [None] and the empty string are
    false. *)
Definition truthy_str (s : option string) : bool :=
  match s with
  | Some EmptyString => false
  | Some _ => true
  | None => false
  end.

Section Selector.

Context {V float Client : Type}.

(** The module [redis.asyncio] as imported at the top of the file: [None]
    when the import failed, else its [from_url], which may reject the
    connection string. *)
Variable aioredis : option (string → outcome Client).

Inductive CacheBackend : Type :=
  | Memory (c : MemoryTTLCache V float)
  | Redis (_client : Client).

(** [RedisCache.__init__] *)
Definition RedisCache (url : string) : outcome CacheBackend :=
  match aioredis with
  | None =>
      Raise (RuntimeError "redis.asyncio not available. Ensure 'redis' package is installed.")
  | Some from_url => _client ← from_url url; mret (Redis _client)
  end.

(** [get_cache()]: the argument and the second component of the result are
    the module global [_cache] before and after the call. An exception
    leaves the global as it was. *)
Definition get_cache (settings : Settings) (_cache : option CacheBackend)
  : outcome CacheBackend * option CacheBackend :=
  match _cache with
  | Some c => (Ok c, _cache)
  | None =>
      if bool_decide (lower (cache_backend settings) = "redis")
         && truthy_str (redis_url settings)
      then
        match RedisCache (default "" (redis_url settings)) with
        | Ok c => (Ok c, Some c)
        | Raise e => (Raise e, None)
        end
      else
        let c := Memory (new_cache default_max_items) in
        (Ok c, Some c)
  end.

End Selector.

Arguments CacheBackend : clear implicits.

End Caching.

(** ** queue.py *)

Module Queue.

Import Settings.

Export PyFloat.

Section QueueModel.

Context {float : Type} `{!FloatOps float}.

(** *** Payload values: what a decoded JSON body holds *)

#[local] Set Warnings "-register-all".


Inductive pyval : Type :=
  | PNone
  | PBool (b : bool)
  | PInt (z : Z)
  | PFloat (f : float)
  | PStr (s : string)
  | PList (l : list pyval)
  | PDict (d : list (string * pyval)).

(** [isinstance(v, (int, float))]: [bool] is a subclass of [int]. *)
Definition isinstance_int_float (v : pyval) : bool :=
  match v with
  | PBool _ | PInt _ | PFloat _ => true
  | _ => false
  end.

(** The integer an [int] or a [bool] stands for in arithmetic. *)
Definition int_value (v : pyval) : option Z :=
  match v with
  | PBool b => Some (if b then 1 else 0)
  | PInt z => Some z
  | _ => None
  end.

(** [a + b] on numbers *)
Definition py_add (a b : pyval) : outcome pyval :=
  match a, b with
  | PFloat x, PFloat y => Ok (PFloat (float_add x y))
  | PFloat x, _ =>
      match int_value b with
      | Some z => y ← to_float z; mret (PFloat (float_add x y))
      | None => Raise (TypeError "unsupported operand type(s) for +")
      end
  | _, PFloat y =>
      match int_value a with
      | Some z => x ← to_float z; mret (PFloat (float_add x y))
      | None => Raise (TypeError "unsupported operand type(s) for +")
      end
  | _, _ =>
      match int_value a, int_value b with
      | Some x, Some y => Ok (PInt (x + y))
      | _, _ => Raise (TypeError "unsupported operand type(s) for +")
      end
  end.

(** [sum(iterable)]: starts from the integer 0 and adds from left to right.
    How the interpreter rounds a sum of floats is inside [float_add]. *)
Fixpoint sum_from (acc : pyval) (l : list pyval) : outcome pyval :=
  match l with
  | [] => Ok acc
  | v :: l' => acc' ← py_add acc v; sum_from acc' l'
  end.

Definition py_sum (l : list pyval) : outcome pyval := sum_from (PInt 0) l.

(** *** Job *)

Inductive job_status : Type := Queued | Processing | Done | Failed.

(** The string the status is in the source. *)
Definition status_str (s : job_status) : string :=
  match s with
  | Queued => "queued"
  | Processing => "processing"
  | Done => "done"
  | Failed => "failed"
  end.

Record Job : Type := mkJob {
  id : string;
  payload : list (string * pyval);
  status : job_status;
  result : option pyval;
  error : option string
}.

Definition set_status (s : job_status) (j : Job) : Job :=
  {| id := id j; payload := payload j; status := s; result := result j; error := error j |}.

Definition set_result (r : option pyval) (j : Job) : Job :=
  {| id := id j; payload := payload j; status := status j; result := r; error := error j |}.

Definition set_error (e : option string) (j : Job) : Job :=
  {| id := id j; payload := payload j; status := status j; result := result j; error := e |}.

(** *** InMemoryJobQueue

    Jobs are objects shared by the registry, the channel, the workers and
    the callers of [enqueue]: [objects] holds every Job allocated so far
    and the rest of the state refers to a Job by its index there.

    A worker task is suspended in [queue.get()] (or not started yet), or
    suspended in the [asyncio.sleep] of the job it took, or over (it left
    the loop or was cancelled). What a task does between two suspensions is
    one atomic transition of the event loop. A worker that finishes a Job
    and finds the channel non-empty takes the next Job without suspending;
    here that is a [worker_resume] followed by a [worker_get], which only
    adds interleavings. [stop] cancels every task before any of them runs
    again, so the tasks' reactions are taken together with it. *)

Inductive worker : Type :=
  | Waiting
  | Working (job : nat)
  | Finished.

Record InMemoryJobQueue : Type := mkQueue {
  objects : list Job;
  queue : list nat;                (* the items of the asyncio.Queue *)
  unfinished_tasks : nat;          (* its count of items put and not yet task_done *)
  jobs : gmap string nat;
  _workers : list worker;
  _shutdown : bool;
  uuid_calls : nat                 (* how many ids uuid4 has issued *)
}.

(** [InMemoryJobQueue()] *)
Definition new_queue : InMemoryJobQueue :=
  {| objects := []; queue := []; unfinished_tasks := 0; jobs := ∅;
     _workers := []; _shutdown := false; uuid_calls := 0 |}.

Definition with_objects (os : list Job) (q : InMemoryJobQueue) : InMemoryJobQueue :=
  {| objects := os; queue := queue q; unfinished_tasks := unfinished_tasks q;
     jobs := jobs q; _workers := _workers q; _shutdown := _shutdown q;
     uuid_calls := uuid_calls q |}.

Definition with_workers (ws : list worker) (q : InMemoryJobQueue) : InMemoryJobQueue :=
  {| objects := objects q; queue := queue q; unfinished_tasks := unfinished_tasks q;
     jobs := jobs q; _workers := ws; _shutdown := _shutdown q;
     uuid_calls := uuid_calls q |}.

Definition with_queue (items : list nat) (n : nat) (q : InMemoryJobQueue) : InMemoryJobQueue :=
  {| objects := objects q; queue := items; unfinished_tasks := n;
     jobs := jobs q; _workers := _workers q; _shutdown := _shutdown q;
     uuid_calls := uuid_calls q |}.

(** The state a task is in once it has evaluated the loop condition
    [while not self._shutdown.is_set()] and reached [queue.get()]. *)
Definition loop_entry (q : InMemoryJobQueue) : worker :=
  if _shutdown q then Finished else Waiting.

(** [start()] *)
Definition start (settings : Settings) (q : InMemoryJobQueue) : InMemoryJobQueue :=
  let n := Z.to_nat (Z.max 1 (queue_worker_concurrency settings)) in
  with_workers (_workers q ++ replicate n (loop_entry q)) q.

(** [queue.task_done()] *)
Definition task_done (q : InMemoryJobQueue) : outcome InMemoryJobQueue :=
  match unfinished_tasks q with
  | O => Raise (ValueError "task_done() called too many times")
  | S n => Ok (with_queue (queue q) n q)
  end.

(** The worker's [try] body from the point where the sleep returns. *)
Definition process (j : Job) : outcome Job :=
  (* demo "processing": return the sum of numeric fields *)
  result_sum ← py_sum (filter (λ v, isinstance_int_float v = true) (payload j).*2);
  let j := set_result (Some (PDict [("sum", result_sum)])) j in
  mret (set_status Done j).

(** [try: ... except Exception as exc: ...] around the body, for a task
    that the sleep resumes normally or with a cancellation. The result is
    the Job afterwards and the exception still in flight, if any. *)
Definition try_process (cancelled : bool) (j : Job) : Job * option exn :=
  match (if cancelled then Raise CancelledError else process j) with
  | Ok j' => (j', None)
  | Raise exc =>
      if is_Exception exc
      then (set_error (Some (exn_str exc)) (set_status Failed j), None)
      else (j, Some exc)
  end.

(** A waiting worker receives the head of the channel, marks it
    [processing] and suspends in the sleep. Not enabled ([None]) for a
    worker that is not waiting or on an empty channel. *)
Definition worker_get (w : nat) (q : InMemoryJobQueue) : option InMemoryJobQueue :=
  match _workers q !! w, queue q with
  | Some Waiting, r :: items =>
      let q := with_queue items (unfinished_tasks q) q in
      let q := with_objects (alter (set_status Processing) r (objects q)) q in
      Some (with_workers (<[w := Working r]> (_workers q)) q)
  | _, _ => None
  end.

(** The sleep of a working worker returns (or raises [CancelledError]): the
    rest of the [try], the handler, the [finally], and the loop condition. *)
Definition worker_resume (cancelled : bool) (w : nat) (q : InMemoryJobQueue)
  : option InMemoryJobQueue :=
  match _workers q !! w with
  | Some (Working r) =>
      j ← objects q !! r;
      let '(j', exc) := try_process cancelled j in
      let q := with_objects (<[r := j']> (objects q)) q in
      match task_done q, exc with
      | Ok q, None => Some (with_workers (<[w := loop_entry q]> (_workers q)) q)
      | Ok q, Some _ => Some (with_workers (<[w := Finished]> (_workers q)) q)
      | Raise _, _ => Some (with_workers (<[w := Finished]> (_workers q)) q)
      end
  | _ => None
  end.

(** [task.cancel()] on one worker, and the task's reaction to it. *)
Definition cancel (q : InMemoryJobQueue) (w : nat) : InMemoryJobQueue :=
  match _workers q !! w with
  | Some Waiting => with_workers (<[w := Finished]> (_workers q)) q
  | Some (Working _) => default q (worker_resume true w q)
  | _ => q
  end.

(** [stop()] *)
Definition stop (q : InMemoryJobQueue) : InMemoryJobQueue :=
  let q := {| objects := objects q; queue := queue q;
              unfinished_tasks := unfinished_tasks q; jobs := jobs q;
              _workers := _workers q; _shutdown := true;
              uuid_calls := uuid_calls q |} in
  foldl cancel q (seq 0 (length (_workers q))).

(** [uuid.uuid4()]: the id issued at each call. *)
Variable uuid4 : nat → string.

(** [enqueue(payload)]: the Job returned and the queue afterwards *)
Definition enqueue (payload : list (string * pyval)) (q : InMemoryJobQueue)
  : nat * InMemoryJobQueue :=
  let job := {| id := uuid4 (uuid_calls q); payload := payload;
                status := Queued; result := None; error := None |} in
  let r := length (objects q) in
  (r, {| objects := objects q ++ [job];
         queue := queue q ++ [r];
         unfinished_tasks := S (unfinished_tasks q);
         jobs := <[id job := r]> (jobs q);
         _workers := _workers q;
         _shutdown := _shutdown q;
         uuid_calls := S (uuid_calls q) |}).

(** [snapshot()] *)
Record entry : Type := mkEntry {
  entry_status : job_status;
  entry_result : option pyval;
  entry_error : option string
}.

Definition entry_of (j : Job) : entry :=
  {| entry_status := status j; entry_result := result j; entry_error := error j |}.

Definition snapshot (q : InMemoryJobQueue) : gmap string entry :=
  omap (λ r, entry_of <$> objects q !! r) (jobs q).

(** *** The transitions of the process *)

Inductive event : Type :=
  | Start (settings : Settings)
  | Stop
  | Enqueue (payload : list (string * pyval))
  | Get (w : nat)
  | Resume (w : nat).

Definition step (e : event) (q : InMemoryJobQueue) : option InMemoryJobQueue :=
  match e with
  | Start settings => Some (start settings q)
  | Stop => Some (stop q)
  | Enqueue payload => Some (enqueue payload q).2
  | Get w => worker_get w q
  | Resume w => worker_resume false w q
  end.

Fixpoint run (es : list event) (q : InMemoryJobQueue) : option InMemoryJobQueue :=
  match es with
  | [] => Some q
  | e :: es' => q' ← step e q; run es' q'
  end.

Definition reachable (q : InMemoryJobQueue) : Prop :=
  ∃ es, run es new_queue = Some q.

(** *** The representative task in the words of the design document

    "The sum of all payload values of type int, float or bool", a boolean
    counting as 1 when true and as 0 when false. *)

Inductive number : Type :=
  | NInt (z : Z)
  | NFloat (f : float).

Definition as_number (v : pyval) : option number :=
  match v with
  | PBool true => Some (NInt 1)
  | PBool false => Some (NInt 0)
  | PInt z => Some (NInt z)
  | PFloat f => Some (NFloat f)
  | _ => None
  end.

Definition number_value (n : number) : pyval :=
  match n with
  | NInt z => PInt z
  | NFloat f => PFloat f
  end.

Definition number_add (a b : number) : outcome number :=
  match a, b with
  | NInt x, NInt y => Ok (NInt (x + y))
  | NInt x, NFloat y => x' ← to_float x; mret (NFloat (float_add x' y))
  | NFloat x, NInt y => y' ← to_float y; mret (NFloat (float_add x y'))
  | NFloat x, NFloat y => Ok (NFloat (float_add x y))
  end.

Fixpoint number_sum_from (acc : number) (ns : list number) : outcome number :=
  match ns with
  | [] => Ok acc
  | n :: ns' => acc' ← number_add acc n; number_sum_from acc' ns'
  end.

Definition numeric_sum (payload : list (string * pyval)) : outcome pyval :=
  n ← number_sum_from (NInt 0) (omap as_number payload.*2);
  mret (number_value n).

(** The same sum in exact arithmetic, for a payload without floats. *)
Definition int_total (payload : list (string * pyval)) : Z :=
  foldr Z.add 0 (omap int_value payload.*2).

Definition is_float (v : pyval) : bool :=
  match v with
  | PFloat _ => true
  | _ => false
  end.

(** *** Invariants of the reachable states *)

Definition busy (w : worker) : nat :=
  match w with
  | Working _ => 1
  | _ => 0
  end.

(** The workers and the channel. *)
Record worker_inv (q : InMemoryJobQueue) : Prop := {
  inv_queue_nodup : NoDup (queue q);
  inv_queued : ∀ r, r ∈ queue q →
    ∃ j, objects q !! r = Some j ∧ status j = Queued;
  inv_working : ∀ w r, _workers q !! w = Some (Working r) →
    ∃ j, objects q !! r = Some j ∧ status j = Processing;
  inv_working_inj : ∀ w w' r,
    _workers q !! w = Some (Working r) → _workers q !! w' = Some (Working r) → w = w';
  inv_unfinished :
    unfinished_tasks q = (length (queue q) + sum_list_with busy (_workers q))%nat;
  inv_fields : ∀ r j, objects q !! r = Some j →
    (result j ≠ None → status j = Done) ∧ (error j ≠ None → status j = Failed)
}.

(** Once the stop signal is raised every worker is over. *)
Definition stopped_inv (q : InMemoryJobQueue) : Prop :=
  _shutdown q = true → ∀ w x, _workers q !! w = Some x → x = Finished.

(** How one transition may change a Job: not at all, or along an edge of
    the state machine. *)
Definition job_transition (j j' : Job) : Prop :=
  j' = j
  ∨ (status j = Queued ∧ j' = set_status Processing j)
  ∨ (status j = Processing
     ∧ ∃ v, j' = set_status Done (set_result (Some (PDict [("sum", v)])) j))
  ∨ (status j = Processing
     ∧ ∃ msg, j' = set_error (Some msg) (set_status Failed j)).

(** The registry and the ids. *)
Record registry_inv (q : InMemoryJobQueue) : Prop := {
  inv_uuid : uuid_calls q = length (objects q);
  inv_ids : ∀ r j, objects q !! r = Some j → id j = uuid4 r;
  inv_jobs : ∀ i r, jobs q !! i = Some r ↔ (r < length (objects q))%nat ∧ i = uuid4 r
}.

End QueueModel.

Arguments pyval : clear implicits.
Arguments Job : clear implicits.
Arguments InMemoryJobQueue : clear implicits.
Arguments entry : clear implicits.
Arguments event : clear implicits.

End Queue.

(** ** main.py: the compute endpoint

    [compute_and_cache] suspends in [asyncio.sleep(0.2)] between its
    [cache.get] and its [cache.set], so other requests may run in between:
    it is two transitions, [compute_lookup] up to the sleep and
    [compute_store] after it. The Redis client and its server are outside
    the repository: [client_get] and [client_set] are parameters acting on
    an abstract state of the remote store, as is [_jsonable], the round
    trip through orjson. *)

Module Main.

Import Settings Caching.

Section ComputeAndCache.

Context {float Client Remote : Type} `{!FloatOps float}.

(** [{"ts": time.time(), "key": key, "computed": True}] *)
Record computed : Type := mkComputed {
  v_ts : float;
  v_key : string;
  v_computed : bool
}.

(** [{"key": key, "cached": ..., "value": ...}] *)
Record response : Type := mkResponse {
  r_key : string;
  r_cached : bool;
  r_value : computed
}.

Variable aioredis : option (string → outcome Client).
Variable client_get : Client → string → Remote → outcome (option computed) * Remote.
Variable client_set :
  Client → string → computed → option Z → Remote → outcome () * Remote.
Variable _jsonable : computed → computed.

(** The process: the selector's global and the remote store. *)
Record app : Type := mkApp {
  _cache : option (CacheBackend computed float Client);
  remote : Remote
}.

(** The backend a request works with: the shared one the selector holds,
    or a [RedisCache] of its own. *)
Inductive handle : Type :=
  | Shared
  | Own (b : CacheBackend computed float Client).

(** [RedisCache.get] *)
Definition RedisCache_get (cl : Client) (key : string) (st : app)
  : outcome (option computed) * app :=
  let '(r, w) := client_get cl key (remote st) in
  (r, {| _cache := _cache st; remote := w |}).

(** [RedisCache.set] *)
Definition RedisCache_set (cl : Client) (key : string) (v : computed)
    (ttl_seconds : option Z) (st : app) : outcome () * app :=
  let '(r, w) :=
    if truthy ttl_seconds
    then client_set cl key v ttl_seconds (remote st)
    else client_set cl key v None (remote st) in
  (r, {| _cache := _cache st; remote := w |}).

(** [await cache.get(key)] on the backend the handle stands for. The
    shared backend exists once the dependency has run; the case of an
    empty selector only makes the function total. *)
Definition cache_get (now : float) (key : string) (h : handle) (st : app)
  : outcome (option computed) * app :=
  match h with
  | Own (Redis cl) => RedisCache_get cl key st
  | Own (Memory c) =>
      match get now key c with
      | Ok (r, _) => (Ok r, st)
      | Raise e => (Raise e, st)
      end
  | Shared =>
      match _cache st with
      | Some (Redis cl) => RedisCache_get cl key st
      | Some (Memory c) =>
          match get now key c with
          | Ok (r, c') => (Ok r, {| _cache := Some (Memory c'); remote := remote st |})
          | Raise e => (Raise e, st)
          end
      | None => (Raise (RuntimeError "no backend"), st)
      end
  end.

(** [await cache.set(key, value, ttl_seconds=ttl)] *)
Definition cache_set (now : float) (key : string) (v : computed) (ttl_seconds : option Z)
    (h : handle) (st : app) : outcome () * app :=
  match h with
  | Own (Redis cl) => RedisCache_set cl key v ttl_seconds st
  | Own (Memory c) =>
      match set now key v ttl_seconds c with
      | Ok _ => (Ok (), st)
      | Raise e => (Raise e, st)
      end
  | Shared =>
      match _cache st with
      | Some (Redis cl) => RedisCache_set cl key v ttl_seconds st
      | Some (Memory c) =>
          match set now key v ttl_seconds c with
          | Ok c' => (Ok (), {| _cache := Some (Memory c'); remote := remote st |})
          | Raise e => (Raise e, st)
          end
      | None => (Raise (RuntimeError "no backend"), st)
      end
  end.

(** How far the first half of the request got. *)
Inductive lookup_result : Type :=
  | Hit (resp : response)
  | Miss (h : handle).

(** [compute_and_cache] up to the sleep: the dependency [cache_dep], the
    choice of the backend, and the lookup; [now] is the clock as the
    in-process cache reads it. *)
Definition compute_lookup (settings : Settings) (now : float) (key : string)
    (use_redis : bool) (st : app) : outcome lookup_result * app :=
  match get_cache aioredis settings (_cache st) with
  | (Raise e, g) => (Raise e, {| _cache := g; remote := remote st |})
  | (Ok _, g) =>
      let st := {| _cache := g; remote := remote st |} in
      (* Choose backend dynamically for demo *)
      let chosen :=
        if use_redis && truthy_str (redis_url settings)
        then b ← RedisCache aioredis (default "" (redis_url settings)); mret (Own b)
        else mret Shared in
      match chosen with
      | Raise e => (Raise e, st)
      | Ok h =>
          match cache_get now key h st with
          | (Raise e, st) => (Raise e, st)
          | (Ok (Some cached), st) =>
              (Ok (Hit {| r_key := key; r_cached := true;
                          r_value := _jsonable cached |}), st)
          | (Ok None, st) => (Ok (Miss h), st)
          end
      end
  end.

(** [compute_and_cache] after the sleep: [t_value] is the clock reading
    put in the value, [t_set] the one [set] takes. *)
Definition compute_store (t_value t_set : float) (key : string) (ttl : Z)
    (h : handle) (st : app) : outcome response * app :=
  let value := {| v_ts := t_value; v_key := key; v_computed := true |} in
  match cache_set t_set key value (Some ttl) h st with
  | (Raise e, st) => (Raise e, st)
  | (Ok _, st) => (Ok {| r_key := key; r_cached := false; r_value := value |}, st)
  end.

(** A request that no other request interleaves with. *)
Definition compute_and_cache (settings : Settings) (now t_value t_set : float)
    (key : string) (ttl : Z) (use_redis : bool) (st : app) : outcome response * app :=
  match compute_lookup settings now key use_redis st with
  | (Raise e, st) => (Raise e, st)
  | (Ok (Hit resp), st) => (Ok resp, st)
  | (Ok (Miss h), st) => compute_store t_value t_set key ttl h st
  end.

End ComputeAndCache.

Arguments computed : clear implicits.
Arguments response : clear implicits.
Arguments app : clear implicits.
Arguments handle : clear implicits.
Arguments lookup_result : clear implicits.

End Main.

(** ** What a Job's fields are, by status *)

Module JobOutcome.

Import Queue.

Section JobOutcome.

Context {float : Type} `{!FloatOps float}.

(** A Job that no worker has finished has neither result nor error; a done
    Job has the sum of its payload as result and no error; a failed Job
    has the message of the exception its sum raises as error and no
    result. *)
Definition settled (j : Job float) : Prop :=
  match status j with
  | Queued | Processing => result j = None ∧ error j = None
  | Done =>
      error j = None
      ∧ ∃ s, numeric_sum (payload j) = Ok s ∧ result j = Some (PDict [("sum", s)])
  | Failed =>
      result j = None
      ∧ ∃ exc, numeric_sum (payload j) = Raise exc ∧ error j = Some (exn_str exc)
  end.

End JobOutcome.

End JobOutcome.

(** * Properties *)

(** ** The in-process cache *)

Module CachingFacts.

Import Caching.

Section CacheFacts.

Context {V float : Type} `{!FloatOps float}.
Implicit Types (d : odict V float) (c : MemoryTTLCache V float) (e : _Entry V float).
Implicit Types (k key : string) (now : float).

(** *** The ordered dictionary *)

Lemma od_lookup_None k d : od_lookup k d = None ↔ k ∉ d.*1.
Proof.
  induction d as [|[k' e] d IH]; simpl.
  - split; [intros _; apply not_elem_of_nil | done].
  - rewrite not_elem_of_cons, <- IH. case_decide; subst.
    + split; [done | intros [? _]; done].
    + split; [intros; split; [congruence | done] | by intros [_ ?]].
Qed.


Lemma od_lookup_elem k e d : od_wf d → (k, e) ∈ d → od_lookup k d = Some e.
Proof.
  unfold od_wf. induction d as [|[k' e'] d IH]; simpl.
  - intros _ H. by apply elem_of_nil in H.
  - rewrite NoDup_cons. intros [Hk Hd] [[= -> ->] | Hin]%elem_of_cons.
    + by rewrite decide_True.
    + case_decide; subst; [|by auto].
      exfalso. apply Hk. apply list_elem_of_fmap. by exists (k, e).
Qed.

Lemma od_contains_lookup k d :
  od_contains k d = bool_decide (od_lookup k d ≠ None).
Proof.
  unfold od_contains. apply bool_decide_ext.
  rewrite <- not_eq_None_Some. done.
Qed.

Lemma od_remove_fresh k d : k ∉ d.*1 → od_remove k d = d.
Proof.
  induction d as [|[k' e] d IH]; simpl; [done|].
  rewrite not_elem_of_cons. intros [Hne Hk].
  rewrite decide_False by done. by rewrite IH.
Qed.

Lemma od_remove_filter k d :
  od_wf d → od_remove k d = filter (λ b, b.1 ≠ k) d.
Proof.
  unfold od_wf. induction d as [|[k' e] d IH]; [done|].
  rewrite fmap_cons, NoDup_cons. intros [Hk Hd]. simpl in Hk.
  rewrite filter_cons. cbn [od_remove fst].
  destruct (decide (k' = k)) as [->|Hne].
  - rewrite decide_False by (intros H; by apply H).
    rewrite <- IH by done. by rewrite od_remove_fresh.
  - rewrite decide_True by done. by rewrite IH.
Qed.

Lemma od_remove_sublist k d : od_remove k d `sublist_of` d.
Proof.
  induction d as [|[k' e] d IH]; simpl; [done|].
  case_decide; [by apply sublist_cons | by apply sublist_skip].
Qed.

Lemma od_wf_sublist d d' : d' `sublist_of` d → od_wf d → od_wf d'.
Proof.
  unfold od_wf. intros Hs Hd. eapply sublist_NoDup; [done|].
  by apply fmap_sublist.
Qed.

Lemma od_remove_wf k d : od_wf d → od_wf (od_remove k d).
Proof. apply od_wf_sublist, od_remove_sublist. Qed.

Lemma od_remove_absent k d : od_wf d → k ∉ (od_remove k d).*1.
Proof.
  intros Hd. rewrite od_remove_filter by done.
  intros ([k' e] & -> & [Hne _]%list_elem_of_filter)%list_elem_of_fmap.
  by apply Hne.
Qed.

Lemma od_remove_length k e d :
  od_lookup k d = Some e → S (length (od_remove k d)) = length d.
Proof.
  revert e. induction d as [|[k' e'] d IH]; simpl; [done|]. intros e.
  case_decide; [done|]. intros Hl. simpl. by rewrite (IH e).
Qed.

Lemma od_setitem_fresh k e d : k ∉ d.*1 → od_setitem k e d = d ++ [(k, e)].
Proof.
  induction d as [|[k' e'] d IH]; simpl; [done|].
  rewrite not_elem_of_cons. intros [Hne Hk].
  rewrite decide_False by done. by rewrite IH.
Qed.

Lemma od_wf_snoc k e d : od_wf d → k ∉ d.*1 → od_wf (d ++ [(k, e)]).
Proof.
  unfold od_wf. intros Hd Hk. rewrite fmap_app. simpl.
  apply NoDup_app. split_and!; [done | | apply NoDup_singleton].
  intros x Hx ->%list_elem_of_singleton. done.
Qed.

Lemma od_lookup_snoc k e d : k ∉ d.*1 → od_lookup k (d ++ [(k, e)]) = Some e.
Proof.
  induction d as [|[k' e'] d IH]; simpl.
  - intros _. by rewrite decide_True.
  - rewrite not_elem_of_cons. intros [Hne Hk].
    rewrite decide_False by done. auto.
Qed.

Lemma od_lookup_snoc_ne k k' e d :
  k ≠ k' → od_lookup k (d ++ [(k', e)]) = od_lookup k d.
Proof.
  intros Hne. induction d as [|[k'' e'] d IH]; simpl.
  - by rewrite decide_False.
  - by rewrite IH.
Qed.

Lemma od_lookup_remove_ne k k' d :
  k ≠ k' → od_lookup k (od_remove k' d) = od_lookup k d.
Proof.
  intros Hne. induction d as [|[k'' e'] d IH]; simpl; [done|].
  destruct (decide (k'' = k')) as [->|Hne'].
  - by rewrite decide_False.
  - simpl. by rewrite IH.
Qed.

Lemma od_lookup_filter (P : string * _Entry V float → Prop) `{!∀ b, Decision (P b)} k d :
  od_wf d →
  od_lookup k (filter P d) =
    e ← od_lookup k d; if decide (P (k, e)) then Some e else None.
Proof.
  unfold od_wf. induction d as [|[k' e'] d IH]; [done|].
  rewrite fmap_cons, NoDup_cons. intros [Hk Hd]. simpl in Hk.
  rewrite filter_cons. cbn [od_lookup fst].
  destruct (decide (k' = k)) as [->|Hne]; simpl.
  - destruct (decide (P (k, e'))); simpl.
    + by rewrite decide_True.
    + rewrite IH by done. by apply od_lookup_None in Hk as ->.
  - destruct (decide (P (k', e'))); simpl; [rewrite decide_False by done|]; auto.
Qed.

(** *** The purge pass *)

Lemma filter_ext_elem {A} (P Q : A → Prop) `{!∀ x, Decision (P x), !∀ x, Decision (Q x)}
    (l : list A) :
  (∀ x, x ∈ l → P x ↔ Q x) → filter P l = filter Q l.
Proof.
  induction l as [|x l IH]; intros HPQ; [done|].
  rewrite !filter_cons, IH.
  - apply decide_ext, HPQ. left.
  - intros y Hy. apply HPQ. by right.
Qed.

Lemma filter_all {A} (P : A → Prop) `{!∀ x, Decision (P x)} (l : list A) :
  (∀ x, x ∈ l → P x) → filter P l = l.
Proof.
  induction l as [|x l IH]; intros HP; [done|].
  rewrite filter_cons, decide_True by (apply HP; left).
  rewrite IH; [done|]. intros y Hy. apply HP. by right.
Qed.

Lemma foldl_pop_filter (ks : list string) d :
  od_wf d →
  foldl (λ d k, od_pop_default k d) d ks = filter (λ b, b.1 ∉ ks) d.
Proof.
  revert d. induction ks as [|k ks IH]; intros d Hd; simpl.
  - symmetry. apply filter_all. intros b _. apply not_elem_of_nil.
  - rewrite IH by (by apply od_remove_wf).
    unfold od_pop_default. rewrite od_remove_filter by done.
    rewrite list_filter_filter. apply list_filter_iff.
    intros b. rewrite not_elem_of_cons. tauto.
Qed.

Lemma keys_to_delete_elem now k e d :
  od_wf d → (k, e) ∈ d → k ∈ keys_to_delete now d ↔ expired now e = true.
Proof.
  intros Hd Hin. unfold keys_to_delete. rewrite list_elem_of_fmap. split.
  - intros ([k' e'] & -> & [Hexp Hin']%list_elem_of_filter). simpl in *.
    apply (od_lookup_elem _ _ _ Hd) in Hin, Hin'. congruence.
  - intros Hexp. exists (k, e). split; [done|].
    by apply list_elem_of_filter.
Qed.

Lemma purge_live now c :
  od_wf (_store c) →
  _purge_expired now c = {| _store := live now (_store c); _max_items := _max_items c |}.
Proof.
  intros Hd. unfold _purge_expired, live. f_equal.
  rewrite foldl_pop_filter by done. apply filter_ext_elem.
  intros [k e] Hin. simpl. rewrite (keys_to_delete_elem now k e) by done.
  by destruct (expired now e).
Qed.

Lemma live_wf now d : od_wf d → od_wf (live now d).
Proof. apply od_wf_sublist, sublist_filter. Qed.

Lemma purge_length now c :
  (length (_store (_purge_expired now c)) ≤ length (_store c))%nat.
Proof.
  unfold _purge_expired. simpl.
  generalize (keys_to_delete now (_store c)). intros ks.
  generalize (_store c). induction ks as [|k ks IH]; intros d; simpl; [done|].
  etrans; [apply IH|]. apply sublist_length, od_remove_sublist.
Qed.

(** *** Eviction *)

Lemma evict_loop_drop (M : Z) d :
  0 ≤ M → evict_loop M d = Ok (drop (length d - Z.to_nat M) d).
Proof.
  intros HM. induction d as [|b d IH]; simpl.
  - rewrite bool_decide_eq_false_2 by lia. done.
  - case_bool_decide as Hlen.
    + rewrite IH. replace (S (length d) - Z.to_nat M)%nat
        with (S (length d - Z.to_nat M)) by lia. done.
    + replace (S (length d) - Z.to_nat M)%nat with 0%nat by lia. done.
Qed.

(** The loop in terms of [popitem(last=False)]. *)
Lemma evict_loop_popitem (M : Z) d :
  evict_loop M d =
    if bool_decide (Z.of_nat (length d) > M)
    then '(_, d') ← od_popitem_first d; evict_loop M d'
    else Ok d.
Proof. by destruct d. Qed.

Lemma evict_loop_negative (M : Z) d :
  M < 0 → evict_loop M d = Raise (KeyError "dictionary is empty").
Proof.
  intros HM. induction d as [|b d IH]; simpl;
    rewrite bool_decide_eq_true_2 by lia; done.
Qed.

Lemma od_setitem_length k e d : (length (od_setitem k e d) ≤ S (length d))%nat.
Proof.
  induction d as [|[k' e'] d IH]; simpl; [done|].
  case_decide; simpl; lia.
Qed.

(** *** What [get] and [set] compute *)

Lemma get_live now key c :
  od_wf (_store c) →
  get now key c =
    Ok (match od_lookup key (live now (_store c)) with
        | Some e =>
            (Some (value e),
             {| _store := od_remove key (live now (_store c)) ++ [(key, e)];
                _max_items := _max_items c |})
        | None =>
            (None, {| _store := live now (_store c); _max_items := _max_items c |})
        end).
Proof.
  intros Hd. unfold get. rewrite purge_live by done. simpl.
  rewrite od_contains_lookup. unfold od_pop.
  destruct (od_lookup key (live now (_store c))) as [e|] eqn:Hl; simpl.
  - rewrite od_setitem_fresh; [done|].
    by apply od_remove_absent, live_wf.
  - done.
Qed.

Lemma expiry_of_cases now ttl :
  expiry_of now ttl =
    match ttl with
    | Some t =>
        if decide (t = 0) then Ok None
        else match float_of_int t with
             | Some ft => Ok (Some (float_add now ft))
             | None => Raise (OverflowError "int too large to convert to float")
             end
    | None => Ok None
    end.
Proof.
  unfold expiry_of, truthy, to_float. destruct ttl as [t|]; [|done]. simpl.
  case_decide as Ht; [by subst|].
  destruct (Z.eqb_spec t 0); [done|]. simpl. by destruct (float_of_int t).
Qed.

Lemma expiry_of_fits now ttl : ttl_fits ttl → ∃ x, expiry_of now ttl = Ok x.
Proof.
  intros Hfit. rewrite expiry_of_cases. destruct ttl as [t|]; [|by eexists].
  case_decide; [by eexists|].
  destruct (Hfit t eq_refl) as [ft ->]; [done|]. by eexists.
Qed.

Lemma expiry_of_unfit now ttl :
  ¬ ttl_fits ttl →
  expiry_of now ttl = Raise (OverflowError "int too large to convert to float").
Proof.
  intros Hfit. rewrite expiry_of_cases. destruct ttl as [t|].
  - case_decide as Ht.
    + exfalso. apply Hfit. intros t' [= <-]. done.
    + destruct (float_of_int t) eqn:Hf; [|done].
      exfalso. apply Hfit. intros t' [= <-] _. by rewrite Hf.
  - exfalso. apply Hfit. by intros t' [=].
Qed.

(** [set] raises what the expiry computation raises, before anything
    else. *)
Lemma set_raise now key v ttl c x :
  expiry_of now ttl = Raise x → set now key v ttl c = Raise x.
Proof. intros Hx. unfold set. by rewrite Hx. Qed.

Lemma set_drop now key v ttl c x :
  od_wf (_store c) → 0 ≤ _max_items c →
  expiry_of now ttl = Ok x →
  let d := od_remove key (_store c)
             ++ [(key, {| value := v; expires_at := x |})] in
  set now key v ttl c =
    Ok {| _store := drop (length d - Z.to_nat (_max_items c)) d;
          _max_items := _max_items c |}.
Proof.
  intros Hd HM Hx. unfold set, _evict_if_needed. rewrite Hx. simpl.
  rewrite od_contains_lookup. unfold od_pop.
  destruct (od_lookup key (_store c)) as [e|] eqn:Hl; simpl.
  - rewrite od_setitem_fresh by (by apply od_remove_absent).
    by rewrite evict_loop_drop.
  - apply od_lookup_None in Hl. rewrite od_remove_fresh by done.
    rewrite od_setitem_fresh by done. by rewrite evict_loop_drop.
Qed.

(** [get] on a well-formed store: the outcome in terms of the binding of
    the key in the store the call found. *)
Lemma get_lookup now key c :
  od_wf (_store c) →
  ∃ c', get now key c =
          Ok (e ← od_lookup key (_store c);
              if expired now e then None else Some (value e), c')
        ∧ od_wf (_store c') ∧ _max_items c' = _max_items c.
Proof.
  intros Hd. rewrite get_live by done. unfold live at 1.
  rewrite od_lookup_filter by done.
  destruct (od_lookup key (_store c)) as [e|] eqn:Hl; simpl.
  - destruct (expired now e) eqn:He; simpl.
    + eexists. split_and!; [done| |done]. by apply live_wf.
    + eexists. split_and!; [done| |done].
      simpl. apply od_wf_snoc.
      * by apply od_remove_wf, live_wf.
      * by apply od_remove_absent, live_wf.
  - eexists. split_and!; [done| |done]. by apply live_wf.
Qed.

(** [get] never raises and never grows the store, whatever the store. *)
Lemma get_length now key c :
  ∃ r c', get now key c = Ok (r, c')
          ∧ (length (_store c') ≤ length (_store c))%nat
          ∧ _max_items c' = _max_items c.
Proof.
  unfold get. pose proof (purge_length now c) as Hp.
  assert (_max_items (_purge_expired now c) = _max_items c) as HM by done.
  revert Hp HM. generalize (_purge_expired now c). intros c0 Hp HM.
  rewrite od_contains_lookup. unfold od_pop.
  destruct (od_lookup key (_store c0)) as [e|] eqn:Hl; simpl.
  - do 2 eexists. split_and!; [done| |done]. simpl.
    pose proof (od_setitem_length key e (od_remove key (_store c0))).
    pose proof (od_remove_length _ _ _ Hl). lia.
  - do 2 eexists. split_and!; [done|done|done].
Qed.

(** [set] with a maximum that is not negative leaves the store within the
    maximum, whatever the store. *)
Lemma set_length now key v ttl c x :
  0 ≤ _max_items c →
  expiry_of now ttl = Ok x →
  ∃ c', set now key v ttl c = Ok c'
        ∧ Z.of_nat (length (_store c')) ≤ _max_items c
        ∧ _max_items c' = _max_items c.
Proof.
  intros HM Hx. unfold set, _evict_if_needed. rewrite Hx. simpl.
  rewrite od_contains_lookup. unfold od_pop.
  destruct (od_lookup key (_store c)) as [e|]; simpl;
    rewrite evict_loop_drop by done; simpl;
    (eexists; split_and!; [done| |done]); simpl; rewrite length_drop; lia.
Qed.

(** [set] keeps the store well formed; with room for one entry the key
    just set is the last binding of the store. *)
Lemma set_last now key v ttl c x :
  od_wf (_store c) → 1 ≤ _max_items c →
  expiry_of now ttl = Ok x →
  ∃ d, set now key v ttl c =
         Ok {| _store := d ++ [(key, {| value := v; expires_at := x |})];
               _max_items := _max_items c |}
       ∧ od_wf d ∧ key ∉ d.*1.
Proof.
  intros Hd HM Hx. rewrite (set_drop _ _ _ _ _ x) by (done || lia). simpl.
  set (n := (length _ - _)%nat).
  assert (n ≤ length (od_remove key (_store c)))%nat as Hn.
  { subst n. rewrite length_app. simpl. lia. }
  rewrite drop_app_le by done.
  exists (drop n (od_remove key (_store c))). split_and!; [done| |].
  - eapply od_wf_sublist; [apply sublist_drop|]. by apply od_remove_wf.
  - intros Hin. eapply (od_remove_absent key (_store c)); [done|].
    eapply elem_of_sublist; [exact Hin|].
    apply fmap_sublist, sublist_drop.
Qed.


(** *** Recency *)







(** *** The claims *)

(** C3. On every state of the in-process cache (an ordered dictionary, so
    each key is bound once) and for every key, [get] does not raise. For a
    key bound to an entry it returns the entry's value when the entry has no
    expiry instant or one that the clock has not reached ([expires_at <= now]
    is false), and [None] when the entry has expired; for a key that is not
    bound it returns [None]. *)
Theorem get_returns_live_value now key c :
  od_wf (_store c) →
  ∃ r c',
    get now key c = Ok (r, c')
    ∧ (∀ e, (key, e) ∈ _store c →
         r = match expires_at e with
             | Some t => if float_le t now then None else Some (value e)
             | None => Some (value e)
             end)
    ∧ (key ∉ (_store c).*1 → r = None).
Proof.
  intros Hd. destruct (get_lookup now key c Hd) as (c' & Hget & _).
  eexists _, c'. split_and!; [exact Hget| |].
  - intros e He. rewrite (od_lookup_elem _ _ _ Hd He). simpl.
    unfold expired. by destruct (expires_at e).
  - intros Hk. apply od_lookup_None in Hk. by rewrite Hk.
Qed.

(** C4 (amended). For a cache with a maximum size [M] that is not
    negative: on every state within the maximum, [get] completes and leaves
    at most [M] entries; [set] completes and leaves at most [M] entries when
    its ttl is absent, zero, or converts to a float, and raises
    [OverflowError] otherwise. So every sequence of operations on a new
    cache whose ttls are of that kind runs to its end, and after each
    operation of a sequence that runs to its end the store has at most [M]
    entries. *)
Theorem size_never_exceeds_max (M : Z) :
  0 ≤ M →
  (∀ c, _max_items c = M → Z.of_nat (length (_store c)) ≤ M →
     (∀ now key, ∃ r c', get now key c = Ok (r, c')
                         ∧ _max_items c' = M
                         ∧ Z.of_nat (length (_store c')) ≤ M)
     ∧ (∀ now key v ttl,
          ttl_fits ttl →
          ∃ c', set now key v ttl c = Ok c'
                ∧ _max_items c' = M
                ∧ Z.of_nat (length (_store c')) ≤ M)
     ∧ (∀ now key v ttl,
          ¬ ttl_fits ttl →
          set now key v ttl c
          = Raise (OverflowError "int too large to convert to float")))
  ∧ (∀ os : list (op V float),
       Forall op_fits os →
       ∃ cs, run_ops os (new_cache M) = Ok cs
             ∧ length cs = length os
             ∧ Forall (λ c, Z.of_nat (length (_store c)) ≤ M) cs)
  ∧ (∀ (os : list (op V float)) cs,
       run_ops os (new_cache M) = Ok cs →
       length cs = length os
       ∧ Forall (λ c, Z.of_nat (length (_store c)) ≤ M) cs).
Proof.
  intros HM.
  assert (∀ c, _max_items c = M → Z.of_nat (length (_store c)) ≤ M →
            (∀ now key, ∃ r c', get now key c = Ok (r, c')
                                ∧ _max_items c' = M
                                ∧ Z.of_nat (length (_store c')) ≤ M)
            ∧ (∀ now key v ttl,
                 ttl_fits ttl →
                 ∃ c', set now key v ttl c = Ok c'
                       ∧ _max_items c' = M
                       ∧ Z.of_nat (length (_store c')) ≤ M)
            ∧ (∀ now key v ttl,
                 ¬ ttl_fits ttl →
                 set now key v ttl c
                 = Raise (OverflowError "int too large to convert to float")))
    as Hstep.
  { intros c Hmax Hlen. split_and!.
    - intros now key.
      destruct (get_length now key c) as (r & c' & -> & Hle & Hm).
      exists r, c'. split_and!; [done|congruence|lia].
    - intros now key v ttl Hfit.
      destruct (expiry_of_fits now ttl Hfit) as [x Hx].
      destruct (set_length now key v ttl c x) as (c' & -> & Hle & Hm); [lia|done|].
      exists c'. split_and!; [done|congruence|lia].
    - intros now key v ttl Hfit. by apply set_raise, expiry_of_unfit. }
  assert (_max_items (new_cache (V:=V) (float:=float) M) = M
          ∧ Z.of_nat (length (_store (new_cache (V:=V) (float:=float) M))) ≤ M) as Hinv
    by (split; [done | simpl; lia]).
  split_and!; [exact Hstep| |].
  - revert Hinv. generalize (new_cache (V:=V) (float:=float) M).
    intros c Hinv os. revert c Hinv.
    induction os as [|o os IH]; intros c [Hmax Hlen] Hos; simpl.
    { exists []. by split_and!. }
    apply Forall_cons in Hos as [Ho Hos].
    destruct (Hstep c Hmax Hlen) as (Hget & Hset & _).
    assert (∃ c', run_op o c = Ok c'
                  ∧ _max_items c' = M ∧ Z.of_nat (length (_store c')) ≤ M)
      as (c' & -> & Hinv').
    { destruct o as [now key|now key v ttl]; simpl.
      - destruct (Hget now key) as (r & c' & -> & ?). by exists c'.
      - by apply Hset. }
    simpl. destruct (IH c' Hinv' Hos) as (cs & -> & Hl & Hall). simpl.
    exists (c' :: cs). split_and!; [done|simpl; lia|].
    constructor; [tauto|done].
  - revert Hinv. generalize (new_cache (V:=V) (float:=float) M).
    intros c Hinv os. revert c Hinv.
    induction os as [|o os IH]; intros c [Hmax Hlen] cs; simpl.
    { intros [= <-]. by split. }
    destruct (Hstep c Hmax Hlen) as (Hget & Hset & Hraise).
    destruct (run_op o c) as [c'|x] eqn:Hrun; [|done]. simpl.
    assert (_max_items c' = M ∧ Z.of_nat (length (_store c')) ≤ M) as Hinv'.
    { destruct o as [now key|now key v ttl]; simpl in Hrun.
      - destruct (Hget now key) as (r & c1 & Hg & ?). rewrite Hg in Hrun.
        simpl in Hrun. by injection Hrun as <-.
      - destruct (expiry_of now ttl) as [x|x] eqn:Hx.
        + destruct (set_length now key v ttl c x) as (c1 & Hs & Hle & Hm);
            [lia|done|].
          rewrite Hs in Hrun. injection Hrun as <-. split; [congruence|lia].
        + by rewrite (set_raise _ _ _ _ _ _ Hx) in Hrun. }
    destruct (run_ops os c') as [cs'|] eqn:Hrest; [|done]. simpl.
    intros [= <-]. destruct (IH c' Hinv' cs' Hrest) as [Hl Hall].
    split; [simpl; lia|]. constructor; [tauto|done].
Qed.

(** C2 (amended). The cache tests the truth value of the ttl, not its
    sign, and adds it to the float clock. After [set(k, v, t)] at clock
    reading [now], in a cache with room for at least one entry: when [t] is
    absent or zero, a [get(k)] returns [v] however late; when [t] is another
    integer that converts to a float, the expiry instant is the float sum
    [now + t], and a [get(k)] at clock reading [now'] returns [None] when
    [now + t <= now'] and [v] otherwise, so a negative [t] stores an entry
    that has expired already; when [t] is too large for a float, [set]
    raises [OverflowError]. *)
Theorem set_then_get_expiry now now' key v ttl c :
  od_wf (_store c) → 1 ≤ _max_items c →
  match ttl with
  | Some t =>
      if decide (t = 0) then
        ∃ c1 c2, set now key v ttl c = Ok c1
                 ∧ get now' key c1 = Ok (Some v, c2)
      else
        match float_of_int t with
        | Some ft =>
            ∃ c1 c2,
              set now key v ttl c = Ok c1
              ∧ get now' key c1 =
                  Ok (if float_le (float_add now ft) now' then None else Some v, c2)
        | None =>
            set now key v ttl c
            = Raise (OverflowError "int too large to convert to float")
        end
  | None =>
      ∃ c1 c2, set now key v ttl c = Ok c1
               ∧ get now' key c1 = Ok (Some v, c2)
  end.
Proof.
  intros Hd HM. pose proof (expiry_of_cases now ttl) as Hx.
  assert (∀ x, expiry_of now ttl = Ok x →
            ∃ c1 c2,
              set now key v ttl c = Ok c1
              ∧ get now' key c1 =
                  Ok (match x with
                      | Some t => if float_le t now' then None else Some v
                      | None => Some v
                      end, c2)) as Hok.
  { intros x Hx'.
    destruct (set_last now key v ttl c x Hd HM Hx') as (d & Hset & Hwf & Hk).
    eexists. rewrite Hset.
    edestruct (get_lookup now' key) as (c2 & Hget & _);
      [|exists c2; split; [done|]; rewrite Hget].
    { simpl. by apply od_wf_snoc. }
    simpl. rewrite od_lookup_snoc by done. simpl.
    unfold expired. simpl. by destruct x. }
  destruct ttl as [t|].
  - case_decide.
    + apply (Hok None Hx).
    + destruct (float_of_int t) as [ft|].
      * apply (Hok _ Hx).
      * by apply set_raise.
  - apply (Hok None Hx).
Qed.


End CacheFacts.

(** *** The claims at concrete inputs, on binary64 *)

Lemma get_returns_live_value_witness :
  let c : MemoryTTLCache string spec_float :=
    {| _store := [("a", {| value := "va"; expires_at := Some (binary64 9) |});
                  ("b", {| value := "vb"; expires_at := Some (binary64 3) |});
                  ("c", {| value := "vc"; expires_at := None |})];
       _max_items := 4 |} in
  od_wf (_store c)
  ∧ (∃ c', get (binary64 5) "a" c = Ok (Some "va", c'))
  ∧ (∃ c', get (binary64 5) "b" c = Ok (None, c'))
  ∧ (∃ c', get (binary64 5) "c" c = Ok (Some "vc", c'))
  ∧ (∃ c', get (binary64 5) "d" c = Ok (None, c')).
Proof.
  intros c.
  assert (od_wf (_store c)) as Hwf by (unfold od_wf; simpl; compute_done).
  split; [exact Hwf|]. split_and!.
  - destruct (get_returns_live_value (binary64 5) "a" c Hwf)
      as (r & c' & Hget & Hin & _).
    exists c'. rewrite Hget.
    by rewrite (Hin {| value := "va"; expires_at := Some (binary64 9) |})
      by (subst c; simpl; left).
  - destruct (get_returns_live_value (binary64 5) "b" c Hwf)
      as (r & c' & Hget & Hin & _).
    exists c'. rewrite Hget.
    by rewrite (Hin {| value := "vb"; expires_at := Some (binary64 3) |})
      by (subst c; simpl; right; left).
  - destruct (get_returns_live_value (binary64 5) "c" c Hwf)
      as (r & c' & Hget & Hin & _).
    exists c'. rewrite Hget.
    by rewrite (Hin {| value := "vc"; expires_at := None |})
      by (subst c; simpl; right; right; left).
  - destruct (get_returns_live_value (binary64 5) "d" c Hwf)
      as (r & c' & Hget & _ & Hout).
    exists c'. rewrite Hget. rewrite Hout; [done|].
    subst c. simpl. intros Hin.
    by repeat (apply elem_of_cons in Hin as [?|Hin]; [done|]);
      apply elem_of_nil in Hin.
Defined.

(** C4 as stated fails for a negative maximum: the cache accepts it, and a
    [get] completes on the empty store, which holds more than [M]
    entries. *)
Lemma negative_max_counterexample :
  get (binary64 0) "a" (new_cache (V:=string) (-1)) = Ok (None, new_cache (-1))
  ∧ run_ops [OpGet (binary64 0) "a"] (new_cache (V:=string) (-1))
    = Ok [new_cache (-1)]
  ∧ ¬ Z.of_nat (length (_store (new_cache (V:=string) (float:=spec_float) (-1)))) ≤ -1.
Proof. split_and!; [done | done | simpl; lia]. Qed.

Lemma size_never_exceeds_max_witness :
  let os : list (op Z spec_float) :=
    [OpSet (binary64 0) "a" 1 None; OpSet (binary64 1) "b" 2 (Some 5);
     OpGet (binary64 2) "a"; OpSet (binary64 3) "c" 3 None] in
  0 ≤ 2
  ∧ Forall op_fits os
  ∧ ∃ cs, run_ops os (new_cache 2) = Ok cs
          ∧ length cs = 4%nat
          ∧ Forall (λ c, Z.of_nat (length (_store c)) ≤ 2) cs.
Proof.
  intros os.
  assert (0 ≤ 2) as H2 by lia.
  assert (Forall op_fits os) as Hos.
  { repeat (apply Forall_cons; split); [| | | |apply Forall_nil]; simpl; try done.
    intros t [= <-] _. vm_compute. by eexists. }
  split_and!; [exact H2|exact Hos|].
  exact (proj1 (proj2 (size_never_exceeds_max 2 H2)) os Hos).
Defined.

(** C2 as stated fails for a negative ttl: it is "not > 0", yet the entry
    is stored with an expiry instant in the past and the next [get] finds
    nothing. *)
Lemma negative_ttl_counterexample :
  ¬ (0 < -5)
  ∧ set (binary64 100) "x" "v" (Some (-5)) (new_cache 1024)
    = Ok {| _store := [("x", {| value := "v"; expires_at := Some (binary64 95) |})];
            _max_items := 1024 |}
  ∧ get (binary64 100) "x"
      {| _store := [("x", {| value := "v"; expires_at := Some (binary64 95) |})];
         _max_items := 1024 |}
    = Ok (None, new_cache 1024)
  ∧ ∀ c, get (binary64 100) "x"
           {| _store := [("x", {| value := "v"; expires_at := Some (binary64 95) |})];
              _max_items := 1024 |} ≠ Ok (Some "v", c).
Proof. split_and!; [lia|done|done|done]. Qed.

Lemma set_then_get_expiry_witness :
  od_wf (_store (new_cache (V:=string) (float:=spec_float) 1024)) ∧ 1 ≤ 1024
  ∧ (∃ c1 c2,
       set (binary64 100) "x" "v" (Some 30) (new_cache 1024) = Ok c1
       ∧ get (binary64 129) "x" c1 = Ok (Some "v", c2))
  ∧ (∃ c1 c2,
       set (binary64 100) "x" "v" (Some 30) (new_cache 1024) = Ok c1
       ∧ get (binary64 130) "x" c1 = Ok (None, c2))
  ∧ (∃ c1 c2,
       set (binary64 100) "x" "v" (Some 0) (new_cache 1024) = Ok c1
       ∧ get (binary64 1000000) "x" c1 = Ok (Some "v", c2))
  ∧ set (binary64 100) "x" "v" (Some (2 ^ 1024)) (new_cache 1024)
    = Raise (OverflowError "int too large to convert to float").
Proof.
  assert (od_wf (_store (new_cache (V:=string) (float:=spec_float) 1024))) as Hwf
    by apply NoDup_nil_2.
  assert (1 ≤ 1024) as HM by lia.
  split_and!; [exact Hwf|exact HM| | | |].
  - exact (set_then_get_expiry (binary64 100) (binary64 129) "x" "v" (Some 30)
             (new_cache 1024) Hwf HM).
  - exact (set_then_get_expiry (binary64 100) (binary64 130) "x" "v" (Some 30)
             (new_cache 1024) Hwf HM).
  - exact (set_then_get_expiry (binary64 100) (binary64 1000000) "x" "v" (Some 0)
             (new_cache 1024) Hwf HM).
  - exact (set_then_get_expiry (binary64 100) (binary64 100) "x" "v" (Some (2 ^ 1024))
             (new_cache 1024) Hwf HM).
Defined.



(** *** The backend selector *)

Section SelectorFacts.

Context {V float Client : Type}.
Variable aioredis : option (string → outcome Client).

Import Settings.

(** Later calls return the backend the first call built. *)
Lemma get_cache_singleton settings (c : CacheBackend V float Client) :
  get_cache aioredis settings (Some c) = (Ok c, Some c).
Proof. done. Qed.

(** Any kind other than "redis" selects the in-process cache. *)
Lemma get_cache_memory_kind settings :
  lower (cache_backend settings) ≠ "redis" →
  get_cache (V:=V) (float:=float) aioredis settings None =
    (Ok (Memory (new_cache 1024)), Some (Memory (new_cache 1024))).
Proof.
  intros Hk. unfold get_cache. by rewrite bool_decide_eq_false_2.
Qed.

(** C1 (amended). For a configuration whose backend kind is "redis" (in
    any letter case), the first call of [get_cache]: with no connection
    string, or an empty one, does not fail -- it falls back to a new
    in-process cache and keeps it; with a connection string, fails with
    [RuntimeError] when the client library is not installed and with the
    library's own exception when [from_url] rejects the string, leaving the
    selector uninitialised, and otherwise returns the remote adapter and
    keeps it. *)
Theorem get_cache_redis_kind settings :
  lower (cache_backend settings) = "redis" →
  get_cache (V:=V) (float:=float) aioredis settings None =
    match redis_url settings with
    | None | Some "" =>
        (Ok (Memory (new_cache 1024)), Some (Memory (new_cache 1024)))
    | Some url =>
        match aioredis with
        | None =>
            (Raise (RuntimeError
               "redis.asyncio not available. Ensure 'redis' package is installed."),
             None)
        | Some from_url =>
            match from_url url with
            | Ok client => (Ok (Redis client), Some (Redis client))
            | Raise e => (Raise e, None)
            end
        end
    end.
Proof.
  intros Hk. unfold get_cache. rewrite bool_decide_eq_true_2 by done.
  destruct (redis_url settings) as [[|a url]|]; simpl; [done| |done].
  unfold RedisCache. destruct aioredis as [from_url|]; [|done].
  by destruct (from_url (String a url)).
Qed.

End SelectorFacts.

(** C1 as stated fails: kind "redis" with no connection string does not
    raise, whether or not the client library is there; the selector returns
    an in-process cache. *)
Lemma redis_without_url_counterexample :
  get_cache (V:=string) (float:=spec_float) (Client:=unit) None
    {| Settings.cache_backend := "redis"; Settings.cache_ttl_seconds := 60;
       Settings.redis_url := None; Settings.queue_worker_concurrency := 2 |}
    None
  = (Ok (Memory (new_cache 1024)), Some (Memory (new_cache 1024)))
  ∧ get_cache (V:=string) (float:=spec_float) (Client:=unit) (Some (λ _, Ok ()))
      {| Settings.cache_backend := "REDIS"; Settings.cache_ttl_seconds := 60;
         Settings.redis_url := Some ""; Settings.queue_worker_concurrency := 2 |}
      None
    = (Ok (Memory (new_cache 1024)), Some (Memory (new_cache 1024))).
Proof. by split. Qed.

Lemma get_cache_redis_kind_witness :
  lower "Redis" = "redis"
  ∧ get_cache (V:=string) (float:=spec_float) (Client:=unit) None
      {| Settings.cache_backend := "Redis"; Settings.cache_ttl_seconds := 60;
         Settings.redis_url := Some "redis://localhost:6379/0";
         Settings.queue_worker_concurrency := 2 |}
      None
    = (Raise (RuntimeError
         "redis.asyncio not available. Ensure 'redis' package is installed."),
       None).
Proof.
  assert (lower "Redis" = "redis") as Hk by reflexivity.
  split; [exact Hk|].
  exact (get_cache_redis_kind (V:=string) (float:=spec_float) (Client:=unit) None
           {| Settings.cache_backend := "Redis"; Settings.cache_ttl_seconds := 60;
              Settings.redis_url := Some "redis://localhost:6379/0";
              Settings.queue_worker_concurrency := 2 |} Hk).
Defined.

End CachingFacts.

(** ** The job queue *)

Module QueueFacts.

Import Settings Queue.

Section QueueFacts.

Context {float : Type} `{!FloatOps float}.
Variable uuid4 : nat → string.

Implicit Types (q : InMemoryJobQueue float) (j : Job float) (w r : nat)
  (ws : list worker) (v : pyval float).

(** *** The task *)

Lemma py_add_raises a b exc :
  py_add a b = Raise exc → is_Exception exc = true.
Proof.
  unfold py_add, to_float.
  destruct a, b; simpl; repeat case_match; simpl; by intros [= <-].
Qed.

Lemma sum_from_raises acc (l : list (pyval float)) exc :
  sum_from acc l = Raise exc → is_Exception exc = true.
Proof.
  revert acc. induction l as [|v l IH]; intros acc; simpl; [done|].
  destruct (py_add acc v) as [acc'|e] eqn:Hadd; simpl.
  - apply IH.
  - intros [= <-]. by eapply py_add_raises.
Qed.

Lemma process_raises j exc : process j = Raise exc → is_Exception exc = true.
Proof.
  unfold process, py_sum.
  destruct (sum_from _ _) as [s|e] eqn:Hs; simpl; [done|].
  intros [= <-]. by eapply sum_from_raises.
Qed.

Lemma process_Ok j j' :
  process j = Ok j' →
  ∃ v, py_sum (filter (λ v, isinstance_int_float v = true) (payload j).*2) = Ok v
       ∧ j' = set_status Done (set_result (Some (PDict [("sum", v)])) j).
Proof.
  unfold process. destruct (py_sum _) as [s|e]; simpl; [|done].
  intros [= <-]. by exists s.
Qed.

(** What the [try] statement leaves behind. *)
Lemma try_process_cases cancelled j j' exc :
  try_process cancelled j = (j', exc) →
  (j' = j ∧ exc = Some CancelledError ∧ cancelled = true)
  ∨ (exc = None ∧ cancelled = false ∧ process j = Ok j')
  ∨ (exc = None ∧ cancelled = false
     ∧ ∃ e, process j = Raise e
            ∧ j' = set_error (Some (exn_str e)) (set_status Failed j)).
Proof.
  unfold try_process. destruct cancelled; simpl.
  - intros [= <- <-]. by left.
  - destruct (process j) as [j1|e] eqn:Hp.
    + intros [= <- <-]. right. left. done.
    + rewrite (process_raises _ _ Hp). intros [= <- <-]. right. right.
      split_and!; [done|done|]. by exists e.
Qed.

Lemma try_process_transition cancelled j j' exc :
  status j = Processing →
  try_process cancelled j = (j', exc) → job_transition j j'.
Proof.
  intros Hst [(-> & _)|[(_ & _ & Hp)|(_ & _ & e & _ & ->)]]%try_process_cases.
  - by left.
  - apply process_Ok in Hp as (v & _ & ->). right. right. left. eauto.
  - right. right. right. eauto.
Qed.

(** *** One transition of a worker *)

Lemma busy_insert ws w (x y : worker) :
  ws !! w = Some x →
  (sum_list_with busy (<[w:=y]> ws) + busy x = sum_list_with busy ws + busy y)%nat.
Proof.
  revert w. induction ws as [|a ws IH]; intros [|w]; simpl; try done.
  - intros [= ->]. clear IH. lia.
  - intros Hw. specialize (IH _ Hw). lia.
Qed.

Lemma busy_replicate (n : nat) (x : worker) :
  busy x = 0%nat → sum_list_with busy (replicate n x) = 0%nat.
Proof. intros Hx. induction n as [|n IH]; simpl; [done|]. lia. Qed.

Lemma alter_as_insert {A} (f : A → A) (l : list A) i x :
  l !! i = Some x → alter f i l = <[i := f x]> l.
Proof.
  revert i. induction l as [|a l IH]; intros [|i]; simpl; try done.
  - by intros [= ->].
  - intros Hi. f_equal. by apply IH.
Qed.

Lemma transition_fields j j' :
  job_transition j j' →
  (result j ≠ None → status j = Done) ∧ (error j ≠ None → status j = Failed) →
  (result j' ≠ None → status j' = Done) ∧ (error j' ≠ None → status j' = Failed).
Proof.
  intros [->|[(Hs & ->)|[(Hs & v & ->)|(Hs & msg & ->)]]] [Hr He]; simpl; [done|..].
  - split; intros Hn; [apply Hr in Hn|apply He in Hn]; congruence.
  - split; [done|]. intros Hn. apply He in Hn. congruence.
  - split; [|done]. intros Hn. apply Hr in Hn. congruence.
Qed.

Lemma transition_id j j' : job_transition j j' → id j' = id j ∧ payload j' = payload j.
Proof.
  by intros [->|[(Hs & ->)|[(Hs & v & ->)|(Hs & msg & ->)]]].
Qed.

(** A waiting worker and a non-empty channel: what [worker_get] does. *)
Lemma worker_get_Some w q q' :
  worker_inv q → worker_get w q = Some q' →
  ∃ r items j,
    _workers q !! w = Some Waiting ∧ queue q = r :: items
    ∧ objects q !! r = Some j ∧ status j = Queued
    ∧ q' = {| objects := <[r := set_status Processing j]> (objects q);
              queue := items;
              unfinished_tasks := unfinished_tasks q;
              jobs := jobs q;
              _workers := <[w := Working r]> (_workers q);
              _shutdown := _shutdown q;
              uuid_calls := uuid_calls q |}.
Proof.
  intros Hinv. unfold worker_get.
  destruct (_workers q !! w) as [[| |]|] eqn:Hw; try done.
  destruct (queue q) as [|r items] eqn:Hq; [done|].
  intros [= <-].
  assert (r ∈ queue q) as Hin by (rewrite Hq; left).
  destruct (inv_queued q Hinv r Hin) as (j & Hj & Hs).
  exists r, items, j. split_and!; try done.
  unfold with_workers, with_objects, with_queue. simpl.
  by rewrite (alter_as_insert _ _ _ _ Hj).
Qed.

(** A working worker whose sleep ends: what [worker_resume] does. *)
Lemma worker_resume_Some cancelled w q q' :
  worker_inv q → worker_resume cancelled w q = Some q' →
  ∃ r j j' exc n,
    _workers q !! w = Some (Working r)
    ∧ objects q !! r = Some j ∧ status j = Processing
    ∧ try_process cancelled j = (j', exc)
    ∧ unfinished_tasks q = S n
    ∧ q' = {| objects := <[r := j']> (objects q);
              queue := queue q;
              unfinished_tasks := n;
              jobs := jobs q;
              _workers := <[w := match exc with
                                 | None => loop_entry q
                                 | Some _ => Finished
                                 end]> (_workers q);
              _shutdown := _shutdown q;
              uuid_calls := uuid_calls q |}.
Proof.
  intros Hinv. unfold worker_resume.
  destruct (_workers q !! w) as [[|r|]|] eqn:Hw; try done.
  destruct (inv_working q Hinv w r Hw) as (j & Hj & Hs).
  rewrite Hj. simpl.
  destruct (try_process cancelled j) as [j' exc] eqn:Htry.
  pose proof (busy_insert _ _ _ Finished Hw) as Hbusy.
  pose proof (inv_unfinished q Hinv) as Hu. simpl in Hbusy.
  destruct (unfinished_tasks q) as [|n] eqn:Hn; [lia|].
  unfold task_done. simpl. rewrite Hn.
  destruct exc as [e|]; intros [= <-];
    [by exists r, j, j', (Some e), n | by exists r, j, j', None, n].
Qed.

(** *** The invariant of the workers and the channel *)

Lemma new_queue_inv : worker_inv (new_queue (float:=float)).
Proof.
  split; simpl; try done.
  - apply NoDup_nil_2.
  - intros r Hr. by apply elem_of_nil in Hr.
Qed.

Lemma worker_get_inv w q q' :
  worker_inv q → worker_get w q = Some q' → worker_inv q'.
Proof.
  intros Hinv Hget.
  destruct (worker_get_Some w q q' Hinv Hget)
    as (r & items & j & Hw & Hq & Hj & Hs & ->).
  pose proof (inv_queue_nodup q Hinv) as Hnd. rewrite Hq in Hnd.
  apply NoDup_cons in Hnd as [Hr Hnd].
  assert (r < length (objects q))%nat as Hlt by (by eapply lookup_lt_Some).
  assert (w < length (_workers q))%nat as Hwlt by (by eapply lookup_lt_Some).
  split; simpl.
  - done.
  - intros r' Hin. assert (r ≠ r') by (intros ->; done).
    rewrite list_lookup_insert_ne by done.
    apply (inv_queued q Hinv). rewrite Hq. by right.
  - intros w' r' Hw'. destruct (decide (w = w')) as [<-|Hne].
    + rewrite list_lookup_insert_eq in Hw' by done. injection Hw' as <-.
      rewrite list_lookup_insert_eq by done. by eexists.
    + rewrite list_lookup_insert_ne in Hw' by done.
      destruct (inv_working q Hinv w' r' Hw') as (j' & Hj' & Hs').
      assert (r ≠ r') by (intros ->; congruence).
      rewrite list_lookup_insert_ne by done. eauto.
  - intros w1 w2 r' H1 H2.
    destruct (decide (w = w1)) as [<-|N1], (decide (w = w2)) as [<-|N2]; [done|..].
    + rewrite list_lookup_insert_eq in H1 by done. injection H1 as <-.
      rewrite list_lookup_insert_ne in H2 by done.
      destruct (inv_working q Hinv w2 r H2) as (j' & Hj' & Hs'). congruence.
    + rewrite list_lookup_insert_eq in H2 by done. injection H2 as <-.
      rewrite list_lookup_insert_ne in H1 by done.
      destruct (inv_working q Hinv w1 r H1) as (j' & Hj' & Hs'). congruence.
    + rewrite list_lookup_insert_ne in H1, H2 by done.
      by eapply (inv_working_inj q Hinv).
  - pose proof (busy_insert _ _ _ (Working r) Hw) as Hb.
    pose proof (inv_unfinished q Hinv) as Hu. rewrite Hq in Hu.
    simpl in *. lia.
  - intros r0 j0 H0. destruct (decide (r = r0)) as [<-|Hne].
    + rewrite list_lookup_insert_eq in H0 by done. injection H0 as <-.
      eapply transition_fields; [|by apply (inv_fields q Hinv r j)].
      right. by left.
    + rewrite list_lookup_insert_ne in H0 by done.
      by apply (inv_fields q Hinv r0).
Qed.

Lemma worker_resume_inv cancelled w q q' :
  worker_inv q → worker_resume cancelled w q = Some q' → worker_inv q'.
Proof.
  intros Hinv Hres.
  destruct (worker_resume_Some cancelled w q q' Hinv Hres)
    as (r & j & j' & exc & n & Hw & Hj & Hs & Htry & Hn & ->).
  assert (r < length (objects q))%nat as Hlt by (by eapply lookup_lt_Some).
  assert (w < length (_workers q))%nat as Hwlt by (by eapply lookup_lt_Some).
  set (x := match exc with None => loop_entry q | Some _ => Finished end).
  assert (busy x = 0%nat) as Hx
    by (subst x; unfold loop_entry; by repeat case_match).
  assert (∀ r', x ≠ Working r') as Hx'
    by (intros r'; subst x; unfold loop_entry; by repeat case_match).
  split; simpl.
  - apply (inv_queue_nodup q Hinv).
  - intros r' Hin. destruct (inv_queued q Hinv r' Hin) as (j0 & Hj0 & Hs0).
    assert (r ≠ r') by (intros ->; congruence).
    rewrite list_lookup_insert_ne by done. eauto.
  - intros w' r' Hw'. destruct (decide (w = w')) as [<-|Hne].
    + rewrite list_lookup_insert_eq in Hw' by done. injection Hw' as Hw'.
      by apply Hx' in Hw'.
    + rewrite list_lookup_insert_ne in Hw' by done.
      assert (r ≠ r').
      { intros ->. apply Hne. by eapply (inv_working_inj q Hinv). }
      rewrite list_lookup_insert_ne by done. by eapply (inv_working q Hinv).
  - intros w1 w2 r' H1 H2.
    destruct (decide (w = w1)) as [<-|N1].
    { rewrite list_lookup_insert_eq in H1 by done. injection H1 as H1.
      by apply Hx' in H1. }
    destruct (decide (w = w2)) as [<-|N2].
    { rewrite list_lookup_insert_eq in H2 by done. injection H2 as H2.
      by apply Hx' in H2. }
    rewrite list_lookup_insert_ne in H1, H2 by done.
    by eapply (inv_working_inj q Hinv).
  - pose proof (busy_insert _ _ _ x Hw) as Hb.
    pose proof (inv_unfinished q Hinv) as Hu. simpl in *. lia.
  - intros r0 j0 H0. destruct (decide (r = r0)) as [<-|Hne].
    + rewrite list_lookup_insert_eq in H0 by done. injection H0 as <-.
      eapply transition_fields; [|by apply (inv_fields q Hinv r j)].
      by eapply try_process_transition.
    + rewrite list_lookup_insert_ne in H0 by done.
      by apply (inv_fields q Hinv r0).
Qed.

Lemma enqueue_inv payload q :
  worker_inv q → worker_inv (enqueue uuid4 payload q).2.
Proof.
  intros Hinv. split; simpl.
  - apply NoDup_app. split_and!; [apply (inv_queue_nodup q Hinv)| |apply NoDup_singleton].
    intros r Hin ->%list_elem_of_singleton.
    destruct (inv_queued q Hinv _ Hin) as (j & Hj%lookup_lt_Some & _). lia.
  - intros r [Hin| ->%list_elem_of_singleton]%elem_of_app.
    + destruct (inv_queued q Hinv r Hin) as (j & Hj & Hs).
      exists j. split; [|done]. by apply lookup_app_l_Some.
    + rewrite list_lookup_middle by done. by eexists.
  - intros w r Hw. destruct (inv_working q Hinv w r Hw) as (j & Hj & Hs).
    exists j. split; [|done]. by apply lookup_app_l_Some.
  - apply (inv_working_inj q Hinv).
  - rewrite length_app, (inv_unfinished q Hinv). simpl. lia.
  - intros r j [Hj|[_ Hj]]%lookup_app_Some.
    + by apply (inv_fields q Hinv r).
    + destruct (r - length (objects q))%nat; [|done].
      injection Hj as <-. done.
Qed.

Lemma start_inv settings q : worker_inv q → worker_inv (start settings q).
Proof.
  intros Hinv. unfold start.
  set (n := Z.to_nat _).
  assert (∀ w r, (_workers q ++ replicate n (loop_entry q)) !! w = Some (Working r) →
                 _workers q !! w = Some (Working r)) as Hold.
  { intros w r [Hw|[_ [Hw _]%lookup_replicate]]%lookup_app_Some; [done|].
    unfold loop_entry in Hw. by case_match. }
  split; simpl.
  - apply (inv_queue_nodup q Hinv).
  - apply (inv_queued q Hinv).
  - intros w r Hw%Hold. by apply (inv_working q Hinv w).
  - intros w w' r Hw%Hold Hw'%Hold. by eapply (inv_working_inj q Hinv).
  - rewrite sum_list_with_app, busy_replicate
      by (unfold loop_entry; by case_match).
    rewrite (inv_unfinished q Hinv). lia.
  - apply (inv_fields q Hinv).
Qed.

(** Cancelling a task does not touch the Jobs: a worker interrupted in
    its sleep leaves its Job as it is, in [processing]. *)
Lemma cancel_objects q w : objects (cancel q w) = objects q.
Proof.
  unfold cancel. destruct (_workers q !! w) as [[|r|]|]; try done.
  unfold worker_resume.
  destruct (_workers q !! w) as [[|r'|]|]; try done.
  destruct (objects q !! r') as [j|] eqn:Hj; simpl; [|done].
  rewrite list_insert_id by done.
  unfold task_done. simpl. by destruct (unfinished_tasks q).
Qed.

Lemma cancel_registry q w :
  jobs (cancel q w) = jobs q ∧ uuid_calls (cancel q w) = uuid_calls q.
Proof.
  unfold cancel. destruct (_workers q !! w) as [[|r|]|]; try done.
  unfold worker_resume.
  destruct (_workers q !! w) as [[|r'|]|]; try done.
  destruct (objects q !! r') as [j|]; simpl; [|done].
  unfold task_done. simpl. by destruct (unfinished_tasks q).
Qed.

Lemma stop_registry q :
  jobs (stop q) = jobs q ∧ uuid_calls (stop q) = uuid_calls q.
Proof.
  unfold stop. set (q0 := {| objects := objects q; _shutdown := true |}).
  change (jobs q) with (jobs q0). change (uuid_calls q) with (uuid_calls q0).
  generalize (seq 0 (length (_workers q0))). intros l.
  generalize q0. clear q0. induction l as [|w l IH]; intros q0; simpl; [done|].
  destruct (IH (cancel q0 w)) as [-> ->]. apply cancel_registry.
Qed.

Lemma cancel_inv q w : worker_inv q → worker_inv (cancel q w).
Proof.
  intros Hinv. unfold cancel.
  destruct (_workers q !! w) as [[|r|]|] eqn:Hw; try done.
  - assert (w < length (_workers q))%nat as Hwlt by (by eapply lookup_lt_Some).
    assert (∀ w' r, <[w:=Finished]> (_workers q) !! w' = Some (Working r) →
                    _workers q !! w' = Some (Working r)) as Hold.
    { intros w' r. destruct (decide (w = w')) as [<-|Hne].
      - by rewrite list_lookup_insert_eq.
      - by rewrite list_lookup_insert_ne. }
    split; simpl.
    + apply (inv_queue_nodup q Hinv).
    + apply (inv_queued q Hinv).
    + intros w' r Hw'%Hold. by apply (inv_working q Hinv w').
    + intros w1 w2 r H1%Hold H2%Hold. by eapply (inv_working_inj q Hinv).
    + pose proof (busy_insert _ _ _ Finished Hw) as Hb.
      rewrite (inv_unfinished q Hinv). simpl in Hb. lia.
    + apply (inv_fields q Hinv).
  - destruct (worker_resume true w q) as [q'|] eqn:Hres; simpl; [|done].
    by eapply worker_resume_inv.
Qed.

Lemma cancel_shape q w :
  worker_inv q →
  _shutdown (cancel q w) = _shutdown q
  ∧ length (_workers (cancel q w)) = length (_workers q)
  ∧ (∀ w', w' ≠ w → _workers (cancel q w) !! w' = _workers q !! w')
  ∧ (∀ x, _workers (cancel q w) !! w = Some x → x = Finished).
Proof.
  intros Hinv. unfold cancel.
  destruct (_workers q !! w) as [[|r|]|] eqn:Hw.
  - simpl. split_and!; [done|by rewrite length_insert| |].
    + intros w' Hne. by rewrite list_lookup_insert_ne.
    + intros x. rewrite list_lookup_insert_eq by (by eapply lookup_lt_Some).
      by intros [= <-].
  - destruct (inv_working q Hinv w r Hw) as (j & Hj & Hs).
    unfold worker_resume. rewrite Hw, Hj. simpl.
    unfold task_done. simpl.
    destruct (unfinished_tasks q); simpl;
      (split_and!; [done|by rewrite length_insert| |]);
      try (intros w' Hne; by rewrite list_lookup_insert_ne);
      (intros x; rewrite list_lookup_insert_eq by (by eapply lookup_lt_Some);
       by intros [= <-]).
  - split_and!; try done. intros x. rewrite Hw. by intros [= <-].
  - split_and!; try done. intros x. by rewrite Hw.
Qed.

Lemma foldl_cancel q (n : nat) :
  worker_inv q →
  let q' := foldl cancel q (seq 0 n) in
  worker_inv q'
  ∧ objects q' = objects q
  ∧ _shutdown q' = _shutdown q
  ∧ length (_workers q') = length (_workers q)
  ∧ (∀ w x, (w < n)%nat → _workers q' !! w = Some x → x = Finished)
  ∧ (∀ w, (n ≤ w)%nat → _workers q' !! w = _workers q !! w).
Proof.
  intros Hinv. induction n as [|n IH].
  - simpl. split_and!; try done. intros w x Hw. lia.
  - cbv zeta in IH |- *. rewrite seq_S, foldl_app.
    destruct IH as (Hinv' & Hobj & Hsh & Hlen & Hfin & Hrest).
    set (q1 := foldl cancel q (seq 0 n)) in *.
    change (foldl cancel q1 [(0 + n)%nat]) with (cancel q1 n).
    destruct (cancel_shape q1 n Hinv') as (Hsh' & Hlen' & Hother & Hself).
    split_and!.
    + by apply cancel_inv.
    + by rewrite cancel_objects.
    + congruence.
    + congruence.
    + intros w x Hw. destruct (decide (w = n)) as [->|Hne].
      * apply Hself.
      * rewrite Hother by done. apply Hfin. lia.
    + intros w Hw. rewrite Hother by lia. apply Hrest. lia.
Qed.

Lemma stop_shape q :
  worker_inv q →
  worker_inv (stop q)
  ∧ objects (stop q) = objects q
  ∧ _shutdown (stop q) = true
  ∧ (∀ w x, _workers (stop q) !! w = Some x → x = Finished).
Proof.
  intros Hinv. unfold stop.
  set (q0 := {| objects := objects q; _shutdown := true |}).
  assert (worker_inv q0) as Hinv0 by (by destruct Hinv).
  destruct (foldl_cancel q0 (length (_workers q0)) Hinv0)
    as (Hinv' & Hobj & Hsh & Hlen & Hfin & _).
  split_and!; try done.
  intros w x Hw. eapply Hfin; [|done].
  apply lookup_lt_Some in Hw. by rewrite <- Hlen.
Qed.

(** *** Reachable states *)

Lemma step_inv e q q' :
  worker_inv q → step uuid4 e q = Some q' → worker_inv q'.
Proof.
  intros Hinv. destruct e as [settings| |payload|w|w]; simpl.
  - intros [= <-]. by apply start_inv.
  - intros [= <-]. by apply stop_shape.
  - intros [= <-]. by apply enqueue_inv.
  - by apply worker_get_inv.
  - by apply worker_resume_inv.
Qed.

Lemma step_stopped e q q' :
  worker_inv q → stopped_inv q → step uuid4 e q = Some q' → stopped_inv q'.
Proof.
  intros Hinv Hst. destruct e as [settings| |payload|w|w]; simpl.
  - intros [= <-] Hsh w x. simpl in *.
    intros [Hw|[_ [-> _]%lookup_replicate]]%lookup_app_Some.
    + by eapply Hst.
    + unfold loop_entry. by rewrite Hsh.
  - intros [= <-] _. by apply stop_shape.
  - intros [= <-]. exact Hst.
  - intros Hget.
    destruct (worker_get_Some w q q' Hinv Hget)
      as (r & items & j & Hw & _ & _ & _ & ->).
    intros Hsh. simpl in Hsh. by specialize (Hst Hsh _ _ Hw).
  - intros Hres.
    destruct (worker_resume_Some false w q q' Hinv Hres)
      as (r & j & j' & exc & n & Hw & _ & _ & _ & _ & ->).
    intros Hsh. simpl in Hsh. by specialize (Hst Hsh _ _ Hw).
Qed.

Lemma run_inv es q q' :
  worker_inv q ∧ stopped_inv q → run uuid4 es q = Some q' →
  worker_inv q' ∧ stopped_inv q'.
Proof.
  revert q. induction es as [|e es IH]; intros q [Hinv Hst]; simpl.
  - by intros [= <-].
  - destruct (step uuid4 e q) as [q1|] eqn:Hstep; simpl; [|done].
    apply IH. split; [by eapply step_inv | by eapply step_stopped].
Qed.

Lemma reachable_inv q : reachable uuid4 q → worker_inv q ∧ stopped_inv q.
Proof.
  intros [es Hrun]. eapply run_inv; [|done].
  split; [apply new_queue_inv | done].
Qed.

Lemma reachable_step e q q' :
  reachable uuid4 q → step uuid4 e q = Some q' → reachable uuid4 q'.
Proof.
  intros [es Hrun] Hstep. exists (es ++ [e]).
  revert Hrun. generalize (new_queue (float:=float)).
  induction es as [|e0 es IH]; intros q0; simpl.
  - intros [= ->]. by rewrite Hstep.
  - destruct (step uuid4 e0 q0) as [q1|]; simpl; [apply IH|done].
Qed.

(** What one transition does to the Jobs there are, and which Jobs it
    adds. *)
Lemma step_objects e q q' :
  worker_inv q → step uuid4 e q = Some q' →
  (∀ r j, objects q !! r = Some j →
          ∃ j', objects q' !! r = Some j' ∧ job_transition j j')
  ∧ (∀ r j', objects q' !! r = Some j' → objects q !! r = None →
             status j' = Queued ∧ result j' = None ∧ error j' = None).
Proof.
  intros Hinv. destruct e as [settings| |payload|w|w]; simpl.
  - intros [= <-]. simpl. split; [|by intros r j' ->].
    intros r j Hj. exists j. split; [done|by left].
  - intros [= <-]. destruct (stop_shape q Hinv) as (_ & -> & _).
    split; [|by intros r j' ->].
    intros r j Hj. exists j. split; [done|by left].
  - intros [= <-]. simpl. split.
    + intros r j Hj. exists j. split; [by apply lookup_app_l_Some|by left].
    + intros r j' [Hj|[_ Hj]]%lookup_app_Some Hnone; [congruence|].
      destruct (r - length (objects q))%nat; [|done]. by injection Hj as <-.
  - intros Hget.
    destruct (worker_get_Some w q q' Hinv Hget)
      as (r & items & j & Hw & Hq & Hj & Hs & ->). simpl.
    assert (r < length (objects q))%nat as Hlt by (by eapply lookup_lt_Some).
    split.
    + intros r0 j0 H0. destruct (decide (r = r0)) as [<-|Hne].
      * rewrite list_lookup_insert_eq by done. eexists. split; [done|].
        right. left. split; congruence.
      * rewrite list_lookup_insert_ne by done. exists j0. split; [done|by left].
    + intros r0 j0 H0 Hnone. apply lookup_lt_Some in H0.
      rewrite length_insert in H0. apply lookup_ge_None in Hnone. lia.
  - intros Hres.
    destruct (worker_resume_Some false w q q' Hinv Hres)
      as (r & j & j' & exc & n & Hw & Hj & Hs & Htry & Hn & ->). simpl.
    assert (r < length (objects q))%nat as Hlt by (by eapply lookup_lt_Some).
    split.
    + intros r0 j0 H0. destruct (decide (r = r0)) as [<-|Hne].
      * rewrite list_lookup_insert_eq by done. eexists. split; [done|].
        assert (j0 = j) as -> by congruence.
        by eapply try_process_transition.
      * rewrite list_lookup_insert_ne by done. exists j0. split; [done|by left].
    + intros r0 j0 H0 Hnone. apply lookup_lt_Some in H0.
      rewrite length_insert in H0. apply lookup_ge_None in Hnone. lia.
Qed.

(** *** The claims about the workers *)

(** C6. In every reachable state of the queue and for every transition of
    the process (start, stop, enqueue, a worker taking a Job, a worker
    finishing one), the status of every Job either stays or moves along
    queued -> processing, processing -> done or processing -> failed; a
    Job in done or failed is not changed at all; a Job the transition
    creates is queued; and in the state reached every Job with a result
    is done and every Job with an error is failed. *)
Theorem job_lifecycle q e q' :
  reachable uuid4 q → step uuid4 e q = Some q' →
  (∀ r j, objects q !! r = Some j →
     ∃ j', objects q' !! r = Some j'
           ∧ (status j' = status j
              ∨ (status j = Queued ∧ status j' = Processing)
              ∨ (status j = Processing ∧ (status j' = Done ∨ status j' = Failed)))
           ∧ (status j = Done ∨ status j = Failed → j' = j))
  ∧ (∀ r j', objects q' !! r = Some j' →
       (objects q !! r = None → status j' = Queued)
       ∧ (result j' ≠ None → status j' = Done)
       ∧ (error j' ≠ None → status j' = Failed)).
Proof.
  intros [Hinv _]%reachable_inv Hstep.
  destruct (step_objects e q q' Hinv Hstep) as [Hold Hnew].
  pose proof (step_inv e q q' Hinv Hstep) as Hinv'.
  split.
  - intros r j Hj. destruct (Hold r j Hj) as (j' & Hj' & Htr).
    exists j'. split; [done|].
    destruct Htr as [->|[(Hs & ->)|[(Hs & v & ->)|(Hs & msg & ->)]]]; simpl.
    + split; [by left|done].
    + split; [right; by left|]. intros [?|?]; congruence.
    + split; [right; right; split; [done|by left]|]. intros [?|?]; congruence.
    + split; [right; right; split; [done|by right]|]. intros [?|?]; congruence.
  - intros r j' Hj'. split_and!.
    + intros Hnone. by destruct (Hnew r j' Hj' Hnone).
    + by apply (inv_fields q' Hinv' r j').
    + by apply (inv_fields q' Hinv' r j').
Qed.

(** C7. When the task of the Job a worker holds raises, the worker's
    transition still takes place: the Job becomes failed with the message
    of the exception as its error, every other Job and every other worker
    is left as it was, the channel is untouched, and the worker is back
    waiting on the channel -- it takes the next Job as soon as there is
    one. Nothing is raised to anyone: [enqueue] returned before, and the
    worker's task does not end. *)
Theorem failed_job_does_not_stop_worker q w r j exc :
  reachable uuid4 q →
  _workers q !! w = Some (Working r) →
  objects q !! r = Some j →
  process j = Raise exc →
  ∃ q', step uuid4 (Resume w) q = Some q'
        ∧ objects q' =
            <[r := set_error (Some (exn_str exc)) (set_status Failed j)]> (objects q)
        ∧ _workers q' = <[w := Waiting]> (_workers q)
        ∧ _workers q' !! w = Some Waiting
        ∧ queue q' = queue q
        ∧ jobs q' = jobs q
        ∧ (∀ r' items, queue q' = r' :: items →
             ∃ q'', step uuid4 (Get w) q' = Some q''
                    ∧ _workers q'' !! w = Some (Working r')).
Proof.
  intros [Hinv Hst]%reachable_inv Hw Hj Hraise.
  assert (w < length (_workers q))%nat as Hwlt by (by eapply lookup_lt_Some).
  assert (_shutdown q = false) as Hsh.
  { destruct (_shutdown q) eqn:Hsh; [|done]. by specialize (Hst Hsh _ _ Hw). }
  pose proof (busy_insert _ _ _ Finished Hw) as Hbusy.
  pose proof (inv_unfinished q Hinv) as Hu. simpl in Hbusy.
  destruct (unfinished_tasks q) as [|n] eqn:Hn; [lia|].
  simpl. unfold worker_resume, try_process. rewrite Hw, Hj. simpl.
  rewrite Hraise, (process_raises _ _ Hraise).
  unfold task_done. simpl. rewrite Hn. simpl.
  unfold loop_entry. simpl. rewrite Hsh.
  eexists. split_and!; try done; simpl.
  - by rewrite list_lookup_insert_eq.
  - intros r' items Hq. unfold worker_get. simpl.
    rewrite list_lookup_insert_eq by done. rewrite Hq. simpl.
    eexists. split; [done|]. simpl.
    rewrite list_lookup_insert_eq; [done|]. by rewrite length_insert.
Qed.

(** *** The registry

    [uuid.uuid4] is taken at its word: it never issues an id twice. *)

Hypothesis uuid4_inj : Inj (=) (=) uuid4.

Lemma new_queue_registry : registry_inv uuid4 (new_queue (float:=float)).
Proof.
  split; simpl; [done|done|].
  intros i r. rewrite lookup_empty. split; [done|]. intros [? _]. lia.
Qed.

(** A transition that keeps the registry and the ids of the Jobs. *)
Lemma registry_inv_update q q' r j j' :
  registry_inv uuid4 q →
  objects q !! r = Some j → id j' = id j →
  objects q' = <[r := j']> (objects q) →
  jobs q' = jobs q → uuid_calls q' = uuid_calls q →
  registry_inv uuid4 q'.
Proof.
  intros [Hu Hids Hjobs] Hj Hid Hobj Hjq Huq.
  split.
  - by rewrite Huq, Hobj, length_insert.
  - intros r0 j0. rewrite Hobj.
    intros [(-> & <- & _)|[_ H0]]%list_lookup_insert_Some.
    + rewrite Hid. by apply Hids.
    + by apply Hids.
  - intros i r0. by rewrite Hjq, Hobj, length_insert.
Qed.

Lemma registry_inv_same q q' :
  registry_inv uuid4 q →
  objects q' = objects q → jobs q' = jobs q → uuid_calls q' = uuid_calls q →
  registry_inv uuid4 q'.
Proof.
  intros [Hu Hids Hjobs] Hobj Hjq Huq.
  split; rewrite ?Hobj, ?Hjq, ?Huq; done.
Qed.

Lemma enqueue_registry payload q :
  registry_inv uuid4 q → registry_inv uuid4 (enqueue uuid4 payload q).2.
Proof.
  intros [Hu Hids Hjobs]. split; simpl.
  - rewrite length_app. simpl. lia.
  - intros r j [Hj|[Hge Hj]]%lookup_app_Some; [by apply Hids|].
    destruct (r - length (objects q))%nat as [|k] eqn:Hk; [|done].
    injection Hj as <-. simpl. f_equal. lia.
  - intros i r. rewrite lookup_insert_Some, Hjobs, length_app. simpl.
    rewrite Hu. split.
    + intros [[Hi Hr]|[Hne [Hlt Hi]]]; subst; (split; [lia|done]).
    + intros [Hlt ->].
      destruct (decide (r = length (objects q))) as [->|Hne]; [by left|].
      right. split_and!; [|lia|done].
      intros Heq. by apply uuid4_inj in Heq.
Qed.

Lemma step_registry e q q' :
  worker_inv q → registry_inv uuid4 q → step uuid4 e q = Some q' →
  registry_inv uuid4 q'.
Proof.
  intros Hinv Hreg. destruct e as [settings| |payload|w|w]; simpl.
  - intros [= <-]. by eapply registry_inv_same.
  - intros [= <-]. destruct (stop_shape q Hinv) as (_ & Hobj & _).
    destruct (stop_registry q) as [Hjobs Hu].
    by eapply registry_inv_same.
  - intros [= <-]. by apply enqueue_registry.
  - intros Hget.
    destruct (worker_get_Some w q q' Hinv Hget)
      as (r & items & j & Hw & Hq & Hj & Hs & ->).
    by eapply (registry_inv_update q _ r j (set_status Processing j)).
  - intros Hres.
    destruct (worker_resume_Some false w q q' Hinv Hres)
      as (r & j & j' & exc & n & Hw & Hj & Hs & Htry & Hn & ->).
    eapply (registry_inv_update q _ r j j'); try done.
    by eapply transition_id, try_process_transition.
Qed.

Lemma reachable_registry q : reachable uuid4 q → registry_inv uuid4 q.
Proof.
  intros [es Hrun].
  assert (worker_inv (new_queue (float:=float))
          ∧ registry_inv uuid4 (new_queue (float:=float))) as Hinit
    by (split; [apply new_queue_inv | apply new_queue_registry]).
  revert Hinit Hrun. generalize (new_queue (float:=float)).
  induction es as [|e es IH]; intros q0 [Hinv Hreg]; simpl.
  - by intros [= <-].
  - destruct (step uuid4 e q0) as [q1|] eqn:Hstep; simpl; [|done].
    apply IH. split; [by eapply step_inv | by eapply step_registry].
Qed.

Lemma snapshot_lookup q (i : string) :
  snapshot q !! i = r ← jobs q !! i; entry_of <$> objects q !! r.
Proof. unfold snapshot. by rewrite lookup_omap. Qed.

Lemma snapshot_object q r j :
  registry_inv uuid4 q → objects q !! r = Some j →
  jobs q !! id j = Some r ∧ snapshot q !! id j = Some (entry_of j).
Proof.
  intros [Hu Hids Hjobs] Hj.
  assert (jobs q !! id j = Some r) as Hreg.
  { apply Hjobs. split; [by eapply lookup_lt_Some | by apply Hids]. }
  split; [done|]. rewrite snapshot_lookup, Hreg. simpl. by rewrite Hj.
Qed.

(** *** The claims about the registry *)

(** C8. In every reachable state and for every payload, [enqueue] returns
    a Job that is queued, with no result and no error, carrying the
    payload, under an id that no Job created before has and that the
    registry did not hold; when [enqueue] returns the registry maps the id
    to that Job and [snapshot] shows it as queued. *)
Theorem enqueue_returns_queued_job payload q :
  reachable uuid4 q →
  let '(r, q') := enqueue uuid4 payload q in
  ∃ j, objects q' !! r = Some j
       ∧ status j = Queued ∧ result j = None ∧ error j = None
       ∧ Queue.payload j = payload
       ∧ (∀ r0 j0, objects q !! r0 = Some j0 → id j0 ≠ id j)
       ∧ jobs q !! id j = None
       ∧ jobs q' !! id j = Some r
       ∧ snapshot q' !! id j =
           Some {| entry_status := Queued; entry_result := None; entry_error := None |}.
Proof.
  intros Hreach. pose proof (reachable_registry q Hreach) as Hreg.
  pose proof (enqueue_registry payload q Hreg) as Hreg'.
  destruct Hreg as [Hu Hids Hjobs].
  destruct (enqueue uuid4 payload q) as [r q'] eqn:Henq.
  unfold enqueue in Henq. injection Henq as <- <-. simpl in *.
  eexists. split; [by apply list_lookup_middle|]. simpl.
  split_and!; try done.
  - intros r0 j0 Hj0 Heq. rewrite (Hids r0 j0 Hj0), Hu in Heq.
    apply uuid4_inj in Heq. apply lookup_lt_Some in Hj0. lia.
  - destruct (jobs q !! uuid4 (uuid_calls q)) as [r0|] eqn:Hl; [|done].
    apply Hjobs in Hl as [Hlt Heq]. apply uuid4_inj in Heq. lia.
  - by rewrite lookup_insert_eq.
  - rewrite snapshot_lookup. simpl. rewrite lookup_insert_eq. simpl.
    by rewrite list_lookup_middle.
Qed.

Lemma snapshot_covers_objects q :
  reachable uuid4 q →
  ∀ r j, objects q !! r = Some j → snapshot q !! id j = Some (entry_of j).
Proof.
  intros Hreach r j Hj.
  apply (snapshot_object q r j); [by apply reachable_registry | done].
Qed.

Lemma run_app es1 es2 q :
  run uuid4 (es1 ++ es2) q = q1 ← run uuid4 es1 q; run uuid4 es2 q1.
Proof.
  revert q. induction es1 as [|e es1 IH]; intros q; simpl; [done|].
  destruct (step uuid4 e q) as [q1|]; simpl; [apply IH|done].
Qed.

(** No sequence of transitions removes a Job or changes its id. *)
Lemma run_keeps_objects es q q' r j :
  worker_inv q → run uuid4 es q = Some q' →
  objects q !! r = Some j →
  ∃ j', objects q' !! r = Some j' ∧ id j' = id j.
Proof.
  revert q j. induction es as [|e es IH]; intros q j Hinv; simpl.
  - intros [= <-] Hj. by exists j.
  - destruct (step uuid4 e q) as [q1|] eqn:Hstep; simpl; [|done].
    intros Hrun Hj.
    destruct (step_objects e q q1 Hinv Hstep) as [Hold _].
    destruct (Hold r j Hj) as (j1 & Hj1 & [Hid _]%transition_id).
    destruct (IH q1 j1 (step_inv e q q1 Hinv Hstep) Hrun Hj1) as (j' & Hj' & Hid').
    exists j'. split; [done|congruence].
Qed.

Lemma entry_of_fields (e : entry float) (j : Job float) :
  e = entry_of j
  ↔ entry_status e = status j ∧ entry_result e = result j ∧ entry_error e = error j.
Proof.
  split; [by intros ->|]. destruct e. simpl. by intros (-> & -> & ->).
Qed.

(** C9. Take any run of the process up to a call of [enqueue] and any
    continuation of it. In the state reached, the Job that call returned
    is still there under the id it was given, and [snapshot] has an entry
    under that id whose status, result and error are the Job's status,
    result and error as they are in that state. *)
Theorem snapshot_has_every_job es1 payload es2 q1 q2 :
  run uuid4 es1 new_queue = Some q1 →
  run uuid4 es2 (enqueue uuid4 payload q1).2 = Some q2 →
  ∃ j e, objects q2 !! (enqueue uuid4 payload q1).1 = Some j
         ∧ id j = uuid4 (uuid_calls q1)
         ∧ snapshot q2 !! id j = Some e
         ∧ entry_status e = status j
         ∧ entry_result e = result j
         ∧ entry_error e = error j.
Proof.
  intros Hrun1 Hrun2.
  assert (reachable uuid4 q1) as Hreach1 by (by exists es1).
  assert (reachable uuid4 q2) as Hreach2.
  { exists (es1 ++ Enqueue payload :: es2).
    rewrite run_app, Hrun1. simpl. done. }
  destruct (reachable_inv q1 Hreach1) as [Hinv1 _].
  destruct (run_keeps_objects es2 _ q2 (length (objects q1))
              {| id := uuid4 (uuid_calls q1); payload := payload;
                 status := Queued; result := None; error := None |}
              (enqueue_inv payload q1 Hinv1) Hrun2) as (j & Hj & Hid).
  { simpl. by apply list_lookup_middle. }
  exists j, (entry_of j). simpl in *. split_and!; [done|done| |done|done|done].
  by apply (snapshot_covers_objects q2 Hreach2 (length (objects q1))).
Qed.

(** *** The task against the words of the design document *)

Lemma py_add_number (acc n : number) v :
  as_number v = Some n →
  py_add (number_value acc) v = m ← number_add acc n; mret (number_value m).
Proof.
  destruct acc as [a|a], v as [|[|]|z|f|s|l|d]; simpl; try done;
    intros [= <-]; simpl; try done;
    unfold to_float; by destruct (float_of_int _).
Qed.

Lemma sum_from_refines (acc : number) (vs : list (pyval float)) :
  sum_from (number_value acc) (filter (λ v, isinstance_int_float v = true) vs)
  = n ← number_sum_from acc (omap as_number vs); mret (number_value n).
Proof.
  revert acc. induction vs as [|v vs IH]; intros acc; [done|].
  rewrite filter_cons. cbn [omap list_omap].
  destruct (as_number v) as [n|] eqn:Hn.
  - rewrite decide_True by (by destruct v).
    cbn [sum_from number_sum_from]. rewrite (py_add_number acc n v Hn).
    destruct (number_add acc n) as [m|e]; simpl; [apply IH|done].
  - rewrite decide_False by (by destruct v as [|[|]| | | | |]).
    apply IH.
Qed.

Lemma process_numeric_sum j :
  process j =
    s ← numeric_sum (payload j);
    mret (set_status Done (set_result (Some (PDict [("sum", s)])) j)).
Proof.
  unfold process, py_sum, numeric_sum.
  rewrite (sum_from_refines (NInt 0)).
  by destruct (number_sum_from _ _).
Qed.

Lemma number_sum_ints (a : Z) (vs : list (pyval float)) :
  Forall (λ v, is_float v = false) vs →
  number_sum_from (NInt a) (omap as_number vs)
  = Ok (NInt (a + foldr Z.add 0 (omap int_value vs))).
Proof.
  intros Hvs. revert a. induction Hvs as [|v vs Hv Hvs IH]; intros a; simpl.
  - f_equal. f_equal. lia.
  - destruct v as [|[|]|z|f|s|l|d]; simpl; try done; try apply IH;
      rewrite IH; f_equal; f_equal; symmetry; apply Z.add_assoc.
Qed.

(** C10. When a worker's transition leaves its Job done, the Job's result
    is the dictionary with the one key "sum" bound to the sum, in payload
    order, of the payload values of type int, float or bool, a boolean
    counting as 1 or 0; its error is still empty. For a payload without
    floats that sum is the integer total of the integers and booleans. *)
Theorem done_result_is_numeric_sum q w r j q' j' :
  reachable uuid4 q →
  _workers q !! w = Some (Working r) →
  objects q !! r = Some j →
  step uuid4 (Resume w) q = Some q' →
  objects q' !! r = Some j' →
  status j' = Done →
  ∃ s, numeric_sum (payload j) = Ok s
       ∧ result j' = Some (PDict [("sum", s)])
       ∧ error j' = None
       ∧ (Forall (λ v, is_float v = false) (payload j).*2 →
          s = PInt (int_total (payload j))).
Proof.
  intros [Hinv _]%reachable_inv Hw Hj Hstep Hj' Hdone. simpl in Hstep.
  destruct (worker_resume_Some false w q q' Hinv Hstep)
    as (r0 & j0 & j1 & exc & n & Hw0 & Hj0 & Hs & Htry & Hn & ->).
  assert (r0 = r) as -> by congruence.
  assert (j0 = j) as -> by congruence.
  simpl in Hj'. rewrite list_lookup_insert_eq in Hj' by (by eapply lookup_lt_Some).
  injection Hj' as ->.
  destruct (try_process_cases _ _ _ _ Htry)
    as [(_ & _ & ?)|[(_ & _ & Hp)|(_ & _ & e & _ & ->)]]; [done| |done].
  rewrite process_numeric_sum in Hp.
  destruct (numeric_sum (payload j)) as [s|] eqn:Hsum; [|done].
  injection Hp as <-. exists s. simpl. split_and!; [done|done| |].
  - destruct (inv_fields q Hinv r j Hj) as [_ He].
    destruct (error j); [|done]. specialize (He ltac:(done)). congruence.
  - intros Hnf. unfold numeric_sum in Hsum.
    rewrite (number_sum_ints 0 _ Hnf) in Hsum. by injection Hsum as <-.
Qed.

End QueueFacts.

(** *** The claims at concrete inputs

    Two workers, ids "0", "1", ... and binary64 floats. The first Job has
    the payload of the design document's example with a flag added; the
    failing one adds an integer beyond the range of a float to a float. *)

Lemma job_lifecycle_witness :
  let q : InMemoryJobQueue spec_float :=
    default new_queue
      (run pretty [Start default_settings;
                   Enqueue [("x", PInt 3); ("flag", PBool true)];
                   Get 0%nat] new_queue) in
  let q' := default new_queue (step pretty (Resume 0%nat) q) in
  reachable pretty q
  ∧ step pretty (Resume 0%nat) q = Some q'
  ∧ ∃ j', objects q' !! 0%nat = Some j'
          ∧ (status j' = Processing
             ∨ (Processing = Queued ∧ status j' = Processing)
             ∨ (Processing = Processing ∧ (status j' = Done ∨ status j' = Failed))).
Proof.
  intros q q'.
  assert (reachable pretty q) as Hreach
    by (exists [Start default_settings;
                Enqueue [("x", PInt 3); ("flag", PBool true)]; Get 0%nat];
        vm_compute; reflexivity).
  assert (step pretty (Resume 0%nat) q = Some q') as Hstep by (vm_compute; reflexivity).
  split_and!; [exact Hreach|exact Hstep|].
  destruct (job_lifecycle pretty q (Resume 0%nat) q' Hreach Hstep) as [Hold _].
  destruct (Hold 0%nat
              {| id := "0"; payload := [("x", PInt 3); ("flag", PBool true)];
                 status := Processing; result := None; error := None |}
              eq_refl) as (j' & Hj' & Hedge & _).
  exists j'. split; [exact Hj'|exact Hedge].
Defined.

Lemma failed_job_does_not_stop_worker_witness :
  let payload : list (string * pyval spec_float) :=
    [("a", PFloat (S754_zero false)); ("b", PInt (2 ^ 1024))] in
  let q : InMemoryJobQueue spec_float :=
    default new_queue
      (run pretty [Start default_settings; Enqueue payload; Get 1%nat] new_queue) in
  let j := {| id := "0"; payload := payload; status := Processing;
              result := None; error := None |} in
  reachable pretty q
  ∧ _workers q !! 1%nat = Some (Working 0)
  ∧ objects q !! 0%nat = Some j
  ∧ process j = Raise (OverflowError "int too large to convert to float")
  ∧ ∃ q', step pretty (Resume 1%nat) q = Some q'
          ∧ objects q' =
              [{| id := "0"; payload := payload; status := Failed; result := None;
                  error := Some "int too large to convert to float" |}]
          ∧ _workers q' !! 1%nat = Some Waiting.
Proof.
  intros payload q j.
  assert (reachable pretty q) as Hreach
    by (exists [Start default_settings; Enqueue payload; Get 1%nat];
        vm_compute; reflexivity).
  assert (_workers q !! 1%nat = Some (Working 0)) as Hw by (vm_compute; reflexivity).
  assert (objects q !! 0%nat = Some j) as Hj by (vm_compute; reflexivity).
  assert (process j = Raise (OverflowError "int too large to convert to float"))
    as Hraise by (vm_compute; reflexivity).
  split_and!; [exact Hreach|exact Hw|exact Hj|exact Hraise|].
  destruct (failed_job_does_not_stop_worker pretty q 1%nat 0%nat j _
              Hreach Hw Hj Hraise) as (q' & Hstep & Hobj & _ & Hw' & _).
  exists q'. split_and!; [exact Hstep| |exact Hw'].
  rewrite Hobj. vm_compute. reflexivity.
Defined.

Lemma enqueue_returns_queued_job_witness :
  let q : InMemoryJobQueue spec_float :=
    default new_queue
      (run pretty [Start default_settings;
                   Enqueue [("x", PInt 3); ("flag", PBool true)];
                   Get 0%nat; Resume 0%nat] new_queue) in
  Inj (=) (=) (pretty (A:=nat)) ∧ reachable pretty q
  ∧ ∃ j, objects (enqueue pretty [("y", PInt 4)] q).2 !! 1%nat = Some j
         ∧ status j = Queued
         ∧ snapshot (enqueue pretty [("y", PInt 4)] q).2 !! id j
           = Some {| entry_status := Queued; entry_result := None;
                     entry_error := None |}.
Proof.
  intros q.
  assert (reachable pretty q) as Hreach
    by (exists [Start default_settings;
                Enqueue [("x", PInt 3); ("flag", PBool true)];
                Get 0%nat; Resume 0%nat];
        vm_compute; reflexivity).
  split_and!; [exact pretty_nat_inj|exact Hreach|].
  pose proof (enqueue_returns_queued_job pretty pretty_nat_inj
                [("y", PInt 4)] q Hreach) as Henq.
  unfold enqueue in Henq |- *. cbv beta iota zeta in Henq.
  destruct Henq as (j & Hj & Hs & _ & _ & _ & _ & _ & _ & Hsnap).
  exists j. split_and!; [exact Hj|exact Hs|exact Hsnap].
Defined.

Lemma snapshot_has_every_job_witness :
  let es1 : list (event spec_float) :=
    [Start default_settings; Enqueue [("x", PInt 3); ("flag", PBool true)];
     Get 0%nat] in
  let es2 : list (event spec_float) := [Resume 0%nat; Get 1%nat; Stop] in
  let q1 := default new_queue (run pretty es1 new_queue) in
  let q2 := default new_queue (run pretty es2 (enqueue pretty [("y", PInt 4)] q1).2) in
  Inj (=) (=) (pretty (A:=nat))
  ∧ run pretty es1 new_queue = Some q1
  ∧ run pretty es2 (enqueue pretty [("y", PInt 4)] q1).2 = Some q2
  ∧ ∃ j e, objects q2 !! 1%nat = Some j
           ∧ id j = "1"
           ∧ snapshot q2 !! id j = Some e
           ∧ entry_status e = status j
           ∧ entry_result e = result j
           ∧ entry_error e = error j.
Proof.
  intros es1 es2 q1 q2.
  assert (run pretty es1 new_queue = Some q1) as Hrun1 by (vm_compute; reflexivity).
  assert (run pretty es2 (enqueue pretty [("y", PInt 4)] q1).2 = Some q2) as Hrun2
    by (vm_compute; reflexivity).
  split_and!; [exact pretty_nat_inj|exact Hrun1|exact Hrun2|].
  exact (snapshot_has_every_job pretty pretty_nat_inj es1 [("y", PInt 4)] es2 q1 q2
           Hrun1 Hrun2).
Defined.

Lemma done_result_is_numeric_sum_witness :
  let payload : list (string * pyval spec_float) :=
    [("x", PInt 3); ("flag", PBool true)] in
  let q : InMemoryJobQueue spec_float :=
    default new_queue
      (run pretty [Start default_settings; Enqueue payload; Get 0%nat] new_queue) in
  let q' := default new_queue (step pretty (Resume 0%nat) q) in
  let j := {| id := "0"; payload := payload; status := Processing;
              result := None; error := None |} in
  let j' := {| id := "0"; payload := payload; status := Done;
               result := Some (PDict [("sum", PInt 4)]); error := None |} in
  reachable pretty q
  ∧ _workers q !! 0%nat = Some (Working 0)
  ∧ objects q !! 0%nat = Some j
  ∧ step pretty (Resume 0%nat) q = Some q'
  ∧ objects q' !! 0%nat = Some j'
  ∧ status j' = Done
  ∧ ∃ s, numeric_sum payload = Ok s
         ∧ result j' = Some (PDict [("sum", s)])
         ∧ s = PInt 4.
Proof.
  intros payload q q' j j'.
  assert (reachable pretty q) as Hreach
    by (exists [Start default_settings; Enqueue payload; Get 0%nat];
        vm_compute; reflexivity).
  assert (_workers q !! 0%nat = Some (Working 0)) as Hw by (vm_compute; reflexivity).
  assert (objects q !! 0%nat = Some j) as Hj by (vm_compute; reflexivity).
  assert (step pretty (Resume 0%nat) q = Some q') as Hstep by (vm_compute; reflexivity).
  assert (objects q' !! 0%nat = Some j') as Hj' by (vm_compute; reflexivity).
  assert (status j' = Done) as Hdone by reflexivity.
  split_and!; [exact Hreach|exact Hw|exact Hj|exact Hstep|exact Hj'|exact Hdone|].
  destruct (done_result_is_numeric_sum pretty q 0%nat 0%nat j q' j'
              Hreach Hw Hj Hstep Hj' Hdone) as (s & Hsum & Hres & _ & Hint).
  exists s. split_and!; [exact Hsum|exact Hres|].
  apply Hint. repeat constructor.
Defined.

End QueueFacts.

(** ** More about the in-process cache *)

Module CacheProperties.

Import Caching CachingFacts.

Section CacheProperties.

Context {V float : Type} `{!FloatOps float}.
Implicit Types (d : odict V float) (c : MemoryTTLCache V float) (e : _Entry V float).
Implicit Types (k key : string) (now : float).

Lemma evict_loop_suffix (M : Z) d d' :
  evict_loop M d = Ok d' → d' `suffix_of` d.
Proof.
  induction d as [|b d IH]; simpl.
  - case_bool_decide; [done|]. by intros [= <-].
  - case_bool_decide.
    + intros Hd. by apply suffix_cons_r, IH.
    + by intros [= <-].
Qed.

Lemma suffix_is_sublist {A} (l1 l2 : list A) :
  l1 `suffix_of` l2 → l1 `sublist_of` l2.
Proof. intros [k ->]. by apply sublist_inserts_l. Qed.

Lemma set_wf now key v ttl c c' :
  od_wf (_store c) → set now key v ttl c = Ok c' →
  od_wf (_store c') ∧ _max_items c' = _max_items c.
Proof.
  intros Hd. unfold set, _evict_if_needed.
  destruct (expiry_of now ttl) as [x|] eqn:Hx; simpl; [|done].
  rewrite od_contains_lookup. unfold od_pop.
  assert (od_wf (od_remove key (_store c)
                 ++ [(key, {| value := v; expires_at := x |})]))
    as Hwf by (apply od_wf_snoc; [by apply od_remove_wf | by apply od_remove_absent]).
  destruct (od_lookup key (_store c)) as [e|] eqn:Hl; simpl.
  - rewrite od_setitem_fresh by (by apply od_remove_absent).
    destruct (evict_loop _ _) as [d'|] eqn:He; simpl; [|done].
    intros [= <-]. simpl. split; [|done].
    eapply od_wf_sublist; [|exact Hwf]. by eapply suffix_is_sublist, evict_loop_suffix.
  - apply od_lookup_None in Hl. rewrite od_remove_fresh in Hwf by done.
    rewrite od_setitem_fresh by done.
    destruct (evict_loop _ _) as [d'|] eqn:He; simpl; [|done].
    intros [= <-]. simpl. split; [|done].
    eapply od_wf_sublist; [|exact Hwf]. by eapply suffix_is_sublist, evict_loop_suffix.
Qed.

(** X1. Whatever the maximum size, every store that a sequence of [get]
    and [set] operations produces from a new cache binds each key once. *)
Theorem stores_bind_each_key_once (M : Z) (os : list (op V float)) cs :
  run_ops os (new_cache M) = Ok cs →
  Forall (λ c, od_wf (_store c)) cs.
Proof.
  assert (od_wf (_store (new_cache (V:=V) (float:=float) M))) as Hwf
    by apply NoDup_nil_2.
  revert Hwf. generalize (new_cache (V:=V) (float:=float) M). revert cs.
  induction os as [|o os IH]; intros cs c Hwf; simpl.
  - intros [= <-]. constructor.
  - destruct (run_op o c) as [c'|] eqn:Hop; simpl; [|done].
    assert (od_wf (_store c')) as Hwf'.
    { destruct o as [now key|now key v ttl]; simpl in Hop.
      - destruct (get_lookup now key c Hwf) as (c1 & Hget & Hwf1 & _).
        rewrite Hget in Hop. simpl in Hop. by injection Hop as <-.
      - by destruct (set_wf now key v ttl c c' Hwf Hop). }
    destruct (run_ops os c') as [cs'|] eqn:Hrun; simpl; [|done].
    intros [= <-]. constructor; [done|]. by eapply IH.
Qed.

Lemma od_lookup_perm k e d : od_lookup k d = Some e → d ≡ₚ od_remove k d ++ [(k, e)].
Proof.
  revert e. induction d as [|[k' e'] d IH]; intros e; simpl; [done|].
  case_decide; subst.
  - intros [= ->]. by rewrite (comm (++)).
  - intros Hl. simpl. by rewrite <- (IH e).
Qed.

(** X2. A [get] removes the expired entries and nothing else: the store
    it leaves holds exactly the entries that were stored and had not
    expired at the call (in some order), the requested key among them or
    not. *)
Theorem get_leaves_live_entries now key c r c' :
  od_wf (_store c) → get now key c = Ok (r, c') →
  _store c' ≡ₚ live now (_store c)
  ∧ Forall (λ b, expired now b.2 = false) (_store c').
Proof.
  intros Hd. rewrite get_live by done.
  assert (∀ d', d' ≡ₚ live now (_store c) → Forall (λ b, expired now b.2 = false) d')
    as Hall.
  { intros d' ->. apply Forall_forall. by intros b [? _]%list_elem_of_filter. }
  destruct (od_lookup key (live now (_store c))) as [e|] eqn:Hl; intros [= <- <-]; simpl.
  - apply od_lookup_perm in Hl. split; [done|]. by apply Hall.
  - split; [done|]. by apply Hall.
Qed.

(** X3. A miss stays a miss: when [get(k)] finds nothing, every later
    [get(k)] on the cache it leaves finds nothing either, at any clock
    reading; only a [set] brings the key back. *)
Theorem miss_stays_miss now now' key c c1 :
  od_wf (_store c) → get now key c = Ok (None, c1) →
  ∃ c2, get now' key c1 = Ok (None, c2).
Proof.
  intros Hd. rewrite get_live by done.
  destruct (od_lookup key (live now (_store c))) as [e|] eqn:Hl; [done|].
  intros [= <-].
  destruct (get_lookup now' key
              {| _store := live now (_store c); _max_items := _max_items c |})
    as (c2 & Hget & _); [by apply live_wf|].
  exists c2. rewrite Hget. simpl. by rewrite Hl.
Qed.

(** X4. Reading does not touch what is stored: after a [get] every key
    that had a live entry is bound to the same value with the same expiry
    instant, the key just read included. A read moves the key to the tail
    and never extends its time to live. *)
Theorem get_keeps_live_bindings now key c r c' k :
  od_wf (_store c) → get now key c = Ok (r, c') →
  od_lookup k (_store c') = od_lookup k (live now (_store c)).
Proof.
  intros Hd. rewrite get_live by done.
  destruct (od_lookup key (live now (_store c))) as [e|] eqn:Hl; intros [= <- <-]; simpl;
    [|done].
  destruct (decide (k = key)) as [->|Hne].
  - rewrite od_lookup_snoc; [done|]. by apply od_remove_absent, live_wf.
  - by rewrite od_lookup_snoc_ne, od_lookup_remove_ne.
Qed.

(** X5. While the cache is not full a [set] disturbs no other key: when
    the entries under other keys are fewer than the maximum and the ttl is
    absent, zero, or converts to a float, [set(k, v, t)] completes and
    leaves [k] bound to [v], with no expiry instant for an absent or zero
    ttl and the float sum of the clock and the ttl otherwise, and every
    other key bound as it was. With a ttl too large for a float it raises
    [OverflowError]. *)
Theorem set_with_room_keeps_other_keys now key v ttl c :
  od_wf (_store c) →
  Z.of_nat (length (filter (λ b, b.1 ≠ key) (_store c))) < _max_items c →
  (ttl_fits ttl →
   ∃ c' e, set now key v ttl c = Ok c'
           ∧ od_wf (_store c')
           ∧ (key, e) ∈ _store c'
           ∧ value e = v
           ∧ expires_at e =
               match ttl with
               | Some t => if decide (t = 0) then None
                           else float_add now <$> float_of_int t
               | None => None
               end
           ∧ ∀ k e', k ≠ key → (k, e') ∈ _store c' ↔ (k, e') ∈ _store c)
  ∧ (¬ ttl_fits ttl →
     set now key v ttl c
     = Raise (OverflowError "int too large to convert to float")).
Proof.
  intros Hd Hroom. rewrite <- od_remove_filter in Hroom by done. split.
  - intros Hfit. destruct (expiry_of_fits now ttl Hfit) as [x Hx].
    rewrite (set_drop _ _ _ _ _ x) by (done || lia). simpl.
    rewrite length_app. simpl.
    replace (_ - _)%nat with 0%nat by lia. rewrite drop_0.
    eexists _, {| value := v; expires_at := x |}.
    split_and!; [done| | |done| |]; simpl.
    + apply od_wf_snoc; [by apply od_remove_wf | by apply od_remove_absent].
    + apply elem_of_app. right. left.
    + rewrite expiry_of_cases in Hx. destruct ttl as [t|]; [|by injection Hx].
      case_decide; [by injection Hx|].
      destruct (float_of_int t); [by injection Hx|done].
    + intros k e' Hne. rewrite elem_of_app, list_elem_of_singleton.
      rewrite od_remove_filter, list_elem_of_filter by done. simpl.
      split; [intros [[_ ?]|[= ? _]]; done | intros; left; done].
  - intros Hfit. by apply set_raise, expiry_of_unfit.
Qed.

(** X6. A cache built with a negative maximum size cannot be written:
    every [set] raises. With a ttl that is absent, zero, or converts to a
    float it raises [KeyError], from [popitem] on the store the eviction
    loop has emptied; with a ttl too large for a float it raises
    [OverflowError] before that. *)
Theorem set_raises_for_negative_max now key v ttl c :
  _max_items c < 0 →
  (ttl_fits ttl → set now key v ttl c = Raise (KeyError "dictionary is empty"))
  ∧ (¬ ttl_fits ttl →
     set now key v ttl c
     = Raise (OverflowError "int too large to convert to float")).
Proof.
  intros HM. split.
  - intros Hfit. destruct (expiry_of_fits now ttl Hfit) as [x Hx].
    unfold set, _evict_if_needed. rewrite Hx. simpl.
    rewrite od_contains_lookup. unfold od_pop.
    destruct (od_lookup key (_store c)); simpl; by rewrite evict_loop_negative.
  - intros Hfit. by apply set_raise, expiry_of_unfit.
Qed.

(** X7. A cache built with maximum size 0 stores nothing: whatever the
    store holds, a [set] whose ttl is absent, zero, or converts to a float
    completes and leaves it empty, so the next [get] of the key misses; a
    [set] with a ttl too large for a float raises [OverflowError]. *)
Theorem set_stores_nothing_for_zero_max now now' key v ttl d :
  (ttl_fits ttl →
   set now key v ttl {| _store := d; _max_items := 0 |}
   = Ok {| _store := []; _max_items := 0 |})
  ∧ (¬ ttl_fits ttl →
     set now key v ttl {| _store := d; _max_items := 0 |}
     = Raise (OverflowError "int too large to convert to float"))
  ∧ get (V:=V) now' key {| _store := []; _max_items := 0 |}
    = Ok (None, {| _store := []; _max_items := 0 |}).
Proof.
  split_and!; [| |done].
  - intros Hfit. destruct (expiry_of_fits now ttl Hfit) as [x Hx].
    destruct (set_length now key v ttl {| _store := d; _max_items := 0 |} x)
      as (c' & Hset & Hlen & Hmax); [simpl; lia|done|].
    rewrite Hset. f_equal. destruct c' as [d' M]. simpl in *.
    destruct d'; simpl in *; [|lia]. f_equal. congruence.
  - intros Hfit. by apply set_raise, expiry_of_unfit.
Qed.

End CacheProperties.

Lemma stores_bind_each_key_once_witness :
  let cs : list (MemoryTTLCache Z spec_float) :=
    [ {| _store := [("a", {| value := 1; expires_at := None |})]; _max_items := 2 |};
      {| _store := [("a", {| value := 2; expires_at := Some (binary64 6) |})];
         _max_items := 2 |};
      {| _store := [("a", {| value := 2; expires_at := Some (binary64 6) |})];
         _max_items := 2 |} ] in
  run_ops [OpSet (binary64 0) "a" 1 None; OpSet (binary64 1) "a" 2 (Some 5);
           OpGet (binary64 2) "a"] (new_cache 2) = Ok cs
  ∧ Forall (λ c, od_wf (_store c)) cs.
Proof.
  intros cs.
  assert (run_ops [OpSet (binary64 0) "a" 1 None; OpSet (binary64 1) "a" 2 (Some 5);
                   OpGet (binary64 2) "a"] (new_cache 2) = Ok cs) as Hrun
    by reflexivity.
  split; [exact Hrun|].
  exact (stores_bind_each_key_once 2 _ _ Hrun).
Defined.

Lemma get_leaves_live_entries_witness :
  let c : MemoryTTLCache Z spec_float :=
    {| _store := [("a", {| value := 1; expires_at := Some (binary64 5) |});
                  ("b", {| value := 2; expires_at := None |});
                  ("c", {| value := 3; expires_at := Some (binary64 20) |})];
       _max_items := 4 |} in
  let c' : MemoryTTLCache Z spec_float :=
    {| _store := [("c", {| value := 3; expires_at := Some (binary64 20) |});
                  ("b", {| value := 2; expires_at := None |})];
       _max_items := 4 |} in
  od_wf (_store c) ∧ get (binary64 10) "b" c = Ok (Some 2, c')
  ∧ _store c' ≡ₚ live (binary64 10) (_store c)
  ∧ Forall (λ b, expired (binary64 10) b.2 = false) (_store c').
Proof.
  intros c c'.
  assert (od_wf (_store c)) as Hwf
    by (unfold od_wf; simpl; compute_done).
  assert (get (binary64 10) "b" c = Ok (Some 2, c')) as Hget by reflexivity.
  split_and!; [exact Hwf|exact Hget|..];
    apply (get_leaves_live_entries (binary64 10) "b" c (Some 2) c' Hwf Hget).
Defined.

Lemma miss_stays_miss_witness :
  let c : MemoryTTLCache Z spec_float :=
    {| _store := [("a", {| value := 1; expires_at := Some (binary64 5) |})];
       _max_items := 4 |} in
  od_wf (_store c) ∧ get (binary64 10) "a" c = Ok (None, new_cache 4)
  ∧ ∃ c2, get (V:=Z) (binary64 3) "a" (new_cache 4) = Ok (None, c2).
Proof.
  intros c.
  assert (od_wf (_store c)) as Hwf
    by (unfold od_wf; simpl; compute_done).
  assert (get (binary64 10) "a" c = Ok (None, new_cache 4)) as Hget by reflexivity.
  split_and!; [exact Hwf|exact Hget|].
  exact (miss_stays_miss (binary64 10) (binary64 3) "a" c (new_cache 4) Hwf Hget).
Defined.

Lemma get_keeps_live_bindings_witness :
  let c : MemoryTTLCache Z spec_float :=
    {| _store := [("a", {| value := 1; expires_at := Some (binary64 15) |});
                  ("b", {| value := 2; expires_at := None |})];
       _max_items := 4 |} in
  let c' : MemoryTTLCache Z spec_float :=
    {| _store := [("b", {| value := 2; expires_at := None |});
                  ("a", {| value := 1; expires_at := Some (binary64 15) |})];
       _max_items := 4 |} in
  od_wf (_store c) ∧ get (binary64 10) "a" c = Ok (Some 1, c')
  ∧ od_lookup "a" (_store c')
    = Some {| value := 1; expires_at := Some (binary64 15) |}.
Proof.
  intros c c'.
  assert (od_wf (_store c)) as Hwf
    by (unfold od_wf; simpl; compute_done).
  assert (get (binary64 10) "a" c = Ok (Some 1, c')) as Hget by reflexivity.
  split_and!; [exact Hwf|exact Hget|].
  exact (get_keeps_live_bindings (binary64 10) "a" c (Some 1) c' "a" Hwf Hget).
Defined.

Lemma set_with_room_keeps_other_keys_witness :
  let c : MemoryTTLCache Z spec_float :=
    {| _store := [("a", {| value := 1; expires_at := Some (binary64 15) |});
                  ("b", {| value := 2; expires_at := None |})];
       _max_items := 2 |} in
  od_wf (_store c)
  ∧ Z.of_nat (length (filter (λ b, b.1 ≠ "a") (_store c))) < _max_items c
  ∧ ttl_fits (float:=spec_float) (Some 30)
  ∧ ¬ ttl_fits (float:=spec_float) (Some (2 ^ 1024))
  ∧ (∃ c' e, set (binary64 10) "a" 7 (Some 30) c = Ok c'
             ∧ od_wf (_store c')
             ∧ ("a", e) ∈ _store c'
             ∧ value e = 7
             ∧ expires_at e = Some (binary64 40)
             ∧ ∀ k e', k ≠ "a" → (k, e') ∈ _store c' ↔ (k, e') ∈ _store c)
  ∧ set (binary64 10) "a" 7 (Some (2 ^ 1024)) c
    = Raise (OverflowError "int too large to convert to float").
Proof.
  intros c.
  assert (od_wf (_store c)) as Hwf
    by (unfold od_wf; simpl; compute_done).
  assert (Z.of_nat (length (filter (λ b, b.1 ≠ "a") (_store c))) < _max_items c)
    as Hroom by (vm_compute; reflexivity).
  assert (ttl_fits (float:=spec_float) (Some 30)) as H30
    by (intros t [= <-] _; vm_compute; by eexists).
  assert (¬ ttl_fits (float:=spec_float) (Some (2 ^ 1024))) as Hbig.
  { intros Hfit. destruct (Hfit _ eq_refl) as [f Hf]; [done|].
    vm_compute in Hf. discriminate Hf. }
  split_and!; [exact Hwf|exact Hroom|exact H30|exact Hbig| |].
  - exact (proj1 (set_with_room_keeps_other_keys (binary64 10) "a" 7 (Some 30) c
                    Hwf Hroom) H30).
  - exact (proj2 (set_with_room_keeps_other_keys (binary64 10) "a" 7 (Some (2 ^ 1024)) c
                    Hwf Hroom) Hbig).
Defined.

Lemma set_raises_for_negative_max_witness :
  -1 < 0
  ∧ ttl_fits (float:=spec_float) None
  ∧ ¬ ttl_fits (float:=spec_float) (Some (2 ^ 1024))
  ∧ set (V:=Z) (binary64 10) "a" 7 None (new_cache (-1))
    = Raise (KeyError "dictionary is empty")
  ∧ set (V:=Z) (binary64 10) "a" 7 (Some (2 ^ 1024)) (new_cache (-1))
    = Raise (OverflowError "int too large to convert to float").
Proof.
  assert (-1 < 0) as HM by lia.
  assert (ttl_fits (float:=spec_float) None) as Hnone by (by intros t [=]).
  assert (¬ ttl_fits (float:=spec_float) (Some (2 ^ 1024))) as Hbig.
  { intros Hfit. destruct (Hfit _ eq_refl) as [f Hf]; [done|].
    vm_compute in Hf. discriminate Hf. }
  split_and!; [exact HM|exact Hnone|exact Hbig| |].
  - exact (proj1 (set_raises_for_negative_max (binary64 10) "a" 7 None
                    (new_cache (-1)) HM) Hnone).
  - exact (proj2 (set_raises_for_negative_max (binary64 10) "a" 7 (Some (2 ^ 1024))
                    (new_cache (-1)) HM) Hbig).
Defined.

Lemma set_stores_nothing_for_zero_max_witness :
  let d : odict Z spec_float := [("a", {| value := 1; expires_at := None |})] in
  ttl_fits (float:=spec_float) (Some 60)
  ∧ ¬ ttl_fits (float:=spec_float) (Some (2 ^ 1024))
  ∧ set (binary64 10) "b" 7 (Some 60) {| _store := d; _max_items := 0 |}
    = Ok {| _store := []; _max_items := 0 |}
  ∧ set (binary64 10) "b" 7 (Some (2 ^ 1024)) {| _store := d; _max_items := 0 |}
    = Raise (OverflowError "int too large to convert to float").
Proof.
  intros d.
  assert (ttl_fits (float:=spec_float) (Some 60)) as H60
    by (intros t [= <-] _; vm_compute; by eexists).
  assert (¬ ttl_fits (float:=spec_float) (Some (2 ^ 1024))) as Hbig.
  { intros Hfit. destruct (Hfit _ eq_refl) as [f Hf]; [done|].
    vm_compute in Hf. discriminate Hf. }
  split_and!; [exact H60|exact Hbig| |].
  - exact (proj1 (set_stores_nothing_for_zero_max (binary64 10) (binary64 11) "b" 7
                    (Some 60) d) H60).
  - exact (proj1 (proj2 (set_stores_nothing_for_zero_max (binary64 10) (binary64 11)
                           "b" 7 (Some (2 ^ 1024)) d)) Hbig).
Defined.

End CacheProperties.

(** ** More about the backend selector *)

Module SelectorProperties.

Import Settings Caching CachingFacts.

Section SelectorProperties.

Context {V float Client : Type}.
Implicit Types (aioredis : option (string → outcome Client))
  (b : CacheBackend V float Client) (g : option (CacheBackend V float Client)).

(** X8. The configuration is read once: after a call of [get_cache] has
    returned a backend, every later call returns that same backend and
    leaves the selector as it is, whatever the settings and the state of
    the client library have become. *)
Theorem get_cache_reads_settings_once aioredis aioredis' settings settings' g0 b g :
  get_cache aioredis settings g0 = (Ok b, g) →
  g = Some b ∧ get_cache aioredis' settings' g = (Ok b, g).
Proof.
  unfold get_cache. destruct g0 as [b0|].
  - by intros [= <- <-].
  - case_match.
    + destruct (RedisCache aioredis _) as [b1|e]; [|done]. by intros [= <- <-].
    + by intros [= <- <-].
Qed.

(** X9. [get_cache] raises only on a first call, for kind "redis" with a
    connection string that is not empty, and then because the client
    library is missing or rejects the string; the selector stays
    uninitialised, so the next call reads the configuration again. *)
Theorem get_cache_raises_only_for_redis_url aioredis settings g0 exc g :
  get_cache aioredis settings g0 = (Raise exc, g) →
  g0 = None ∧ g = None
  ∧ lower (cache_backend settings) = "redis"
  ∧ ∃ url, redis_url settings = Some url ∧ url ≠ ""
           ∧ match aioredis with
             | None => ∃ msg, exc = RuntimeError msg
             | Some from_url => from_url url = Raise exc
             end.
Proof.
  unfold get_cache. destruct g0 as [b0|]; [done|].
  case_bool_decide as Hk; simpl; [|done].
  destruct (redis_url settings) as [[|a url]|]; simpl; [done| |done].
  unfold RedisCache. destruct aioredis as [from_url|]; simpl.
  - destruct (from_url (String a url)) as [cl|e] eqn:Hf; simpl; [done|].
    intros [= <- <-]. split_and!; try done. by exists (String a url).
  - intros [= <- <-]. split_and!; try done. exists (String a url).
    split_and!; [done|done|]. by eexists.
Qed.

End SelectorProperties.

Lemma get_cache_reads_settings_once_witness :
  let s := {| cache_backend := "memory"; cache_ttl_seconds := 60;
              redis_url := None; queue_worker_concurrency := 2 |} in
  let s' := {| cache_backend := "redis"; cache_ttl_seconds := 60;
               redis_url := Some "redis://localhost:6379/0";
               queue_worker_concurrency := 2 |} in
  let b : CacheBackend string spec_float unit := Memory (new_cache 1024) in
  get_cache None s None = (Ok b, Some b)
  ∧ get_cache None s' (Some b) = (Ok b, Some b).
Proof.
  intros s s' b.
  assert (get_cache None s None = (Ok b, Some b)) as Hfirst by reflexivity.
  split; [exact Hfirst|].
  exact (proj2 (get_cache_reads_settings_once None None s s' None b (Some b) Hfirst)).
Defined.

Lemma get_cache_raises_only_for_redis_url_witness :
  let s := {| cache_backend := "redis"; cache_ttl_seconds := 60;
              redis_url := Some "ftp://nowhere"; queue_worker_concurrency := 2 |} in
  let from_url : string → outcome unit :=
    λ _, Raise (ValueError "Redis URL must specify one of the following schemes") in
  get_cache (V:=string) (float:=spec_float) (Some from_url) s None
  = (Raise (ValueError "Redis URL must specify one of the following schemes"), None)
  ∧ lower (cache_backend s) = "redis".
Proof.
  intros s from_url.
  assert (get_cache (V:=string) (float:=spec_float) (Some from_url) s None
          = (Raise (ValueError "Redis URL must specify one of the following schemes"),
             None)) as Hcall by reflexivity.
  split; [exact Hcall|].
  exact (proj1 (proj2 (proj2
           (get_cache_raises_only_for_redis_url (Some from_url) s None _ None Hcall)))).
Defined.

End SelectorProperties.

(** ** More about the job queue *)

Module QueueProperties.

Import Settings Queue QueueFacts JobOutcome.

Section QueueProperties.

Context {float : Type} `{!FloatOps float}.
Variable uuid4 : nat → string.

Implicit Types (q : InMemoryJobQueue float) (j : Job float) (w r : nat)
  (ws : list worker) (v : pyval float) (n : number (float:=float)).

(** *** The task *)

Lemma number_add_raises (a n : number) exc :
  number_add a n = Raise exc →
  exc = OverflowError "int too large to convert to float"
  ∧ ((∃ f, a = NFloat f) ∨ (∃ f, n = NFloat f)).
Proof.
  unfold number_add, to_float.
  destruct a as [x|x], n as [y|y]; simpl; try done;
    destruct (float_of_int _); simpl; try done; intros [= <-]; eauto.
Qed.

Lemma number_add_float (a n m : number) f :
  number_add a n = Ok m → m = NFloat f →
  (∃ f', a = NFloat f') ∨ (∃ f', n = NFloat f').
Proof.
  destruct a as [x|x], n as [y|y]; simpl; eauto. by intros [= <-].
Qed.

Lemma number_sum_raises (acc : number) (ns : list number) exc :
  number_sum_from acc ns = Raise exc →
  exc = OverflowError "int too large to convert to float"
  ∧ ((∃ f, acc = NFloat f) ∨ Exists (λ n, ∃ f, n = NFloat f) ns).
Proof.
  revert acc. induction ns as [|n ns IH]; intros acc; simpl; [done|].
  destruct (number_add acc n) as [m|e] eqn:Hadd; simpl.
  - intros [-> [[f ->]|Hex]]%IH; (split; [done|]).
    + destruct (number_add_float _ _ _ f Hadd eq_refl) as [?|?];
        [by left | right; by left].
    + right. by right.
  - intros [= <-]. apply number_add_raises in Hadd as [-> [?|?]];
      (split; [done|]); [by left | right; by left].
Qed.

Lemma as_number_float (vs : list (pyval float)) :
  Exists (λ n, ∃ f, n = NFloat f) (omap as_number vs) →
  Exists (λ v, is_float v = true) vs.
Proof.
  induction vs as [|v vs IH]; simpl.
  - by intros ?%Exists_nil.
  - destruct (as_number v) as [n|] eqn:Hn; simpl.
    + intros [[f ->]|Hex]%Exists_cons.
      * left. by destruct v as [|[|]| | | | |].
      * right. by apply IH.
    + intros Hex. right. by apply IH.
Qed.

(** X10. The task fails in one way only: with [OverflowError], message
    "int too large to convert to float", and only on a payload that holds a
    float value (an integer, or the running integer sum, is then too large
    to be added to it). *)
Theorem task_fails_only_on_float_overflow j exc :
  process j = Raise exc →
  exc = OverflowError "int too large to convert to float"
  ∧ Exists (λ v, is_float v = true) (payload j).*2.
Proof.
  rewrite process_numeric_sum. unfold numeric_sum.
  destruct (number_sum_from _ _) as [m|e] eqn:Hsum; simpl; [done|].
  intros [= <-]. apply number_sum_raises in Hsum as [-> [[f ?]|Hex]]; [done|].
  split; [done|]. by apply as_number_float.
Qed.

(** X11. On a payload without float values the task cannot fail: the Job
    becomes done with the integer total of its integer and boolean values,
    which is 0 when it has none (an empty payload, or strings only). *)
Theorem task_on_integers_never_fails j :
  Forall (λ v, is_float v = false) (payload j).*2 →
  process j =
    Ok (set_status Done
          (set_result (Some (PDict [("sum", PInt (int_total (payload j)))])) j)).
Proof.
  intros Hnf. rewrite process_numeric_sum. unfold numeric_sum.
  by rewrite (number_sum_ints 0 _ Hnf).
Qed.

(** *** Result and error are functions of status and payload *)

Lemma try_process_settled j j' exc :
  status j = Processing → settled j →
  try_process false j = (j', exc) → settled j'.
Proof.
  unfold settled. intros Hs. rewrite Hs. intros [Hr He].
  unfold try_process. rewrite process_numeric_sum.
  destruct (numeric_sum (payload j)) as [s|e] eqn:Hsum; simpl.
  - intros [= <- <-]. simpl. split; [done|]. by exists s.
  - assert (process j = Raise e) as Hp
      by (by rewrite process_numeric_sum, Hsum).
    rewrite (process_raises _ _ Hp). intros [= <- <-]. simpl.
    split; [done|]. by exists e.
Qed.

Lemma step_settled e q q' :
  worker_inv q → (∀ r j, objects q !! r = Some j → settled j) →
  step uuid4 e q = Some q' →
  ∀ r j, objects q' !! r = Some j → settled j.
Proof.
  intros Hinv Hall. destruct e as [settings| |payload|w|w]; simpl.
  - intros [= <-]. exact Hall.
  - intros [= <-]. destruct (stop_shape q Hinv) as (_ & -> & _). exact Hall.
  - intros [= <-] r j. simpl.
    intros [Hj|[_ Hj]]%lookup_app_Some; [by eapply Hall|].
    destruct (r - length (objects q))%nat; [|done]. by injection Hj as <-.
  - intros Hget.
    destruct (worker_get_Some w q q' Hinv Hget)
      as (r & items & j & Hw & Hq & Hj & Hs & ->). simpl.
    intros r0 j0 [(-> & <- & _)|[_ H0]]%list_lookup_insert_Some; [|by eapply Hall].
    specialize (Hall _ _ Hj). unfold settled in *. simpl. by rewrite Hs in Hall.
  - intros Hres.
    destruct (worker_resume_Some false w q q' Hinv Hres)
      as (r & j & j' & exc & n & Hw & Hj & Hs & Htry & Hn & ->). simpl.
    intros r0 j0 [(-> & <- & _)|[_ H0]]%list_lookup_insert_Some; [|by eapply Hall].
    eapply try_process_settled; [done| |done]. by eapply Hall.
Qed.

(** X12. In every reachable state the result and the error of every Job
    are what its status and its payload say: none of either while it is
    queued or processing; when done, no error and the sum of the payload
    as result; when failed, no result and the message of the exception
    that sum raises as error. *)
Theorem jobs_are_settled q r j :
  reachable uuid4 q → objects q !! r = Some j → settled j.
Proof.
  intros [es Hrun]. revert r j.
  assert (worker_inv (new_queue (float:=float))
          ∧ ∀ r j, objects (new_queue (float:=float)) !! r = Some j → settled j)
    as Hinit by (split; [apply new_queue_inv | done]).
  revert Hinit Hrun. generalize (new_queue (float:=float)).
  induction es as [|e es IH]; intros q0 [Hinv Hall]; simpl.
  - by intros [= <-].
  - destruct (step uuid4 e q0) as [q1|] eqn:Hstep; simpl; [|done].
    apply IH. split; [by eapply step_inv | by eapply step_settled].
Qed.

(** *** The channel *)

Lemma cancel_queue q w : queue (cancel q w) = queue q.
Proof.
  unfold cancel. destruct (_workers q !! w) as [[|r|]|]; try done.
  unfold worker_resume.
  destruct (_workers q !! w) as [[|r'|]|]; try done.
  destruct (objects q !! r') as [j|]; simpl; [|done].
  unfold task_done. simpl. by destruct (unfinished_tasks q).
Qed.

Lemma stop_queue q : queue (stop q) = queue q.
Proof.
  unfold stop. set (q0 := {| objects := objects q; _shutdown := true |}).
  change (queue q) with (queue q0).
  generalize (seq 0 (length (_workers q0))). intros l.
  generalize q0. clear q0. induction l as [|w l IH]; intros q0; simpl; [done|].
  rewrite IH. apply cancel_queue.
Qed.

Lemma step_fifo e q q' :
  worker_inv q →
  StronglySorted lt (queue q)
  ∧ (∀ r j, objects q !! r = Some j → status j = Queued → r ∈ queue q) →
  step uuid4 e q = Some q' →
  StronglySorted lt (queue q')
  ∧ (∀ r j, objects q' !! r = Some j → status j = Queued → r ∈ queue q').
Proof.
  intros Hinv [Hsort Hall]. destruct e as [settings| |payload|w|w]; simpl.
  - by intros [= <-].
  - intros [= <-]. destruct (stop_shape q Hinv) as (_ & -> & _).
    by rewrite stop_queue.
  - intros [= <-]. simpl. split.
    + apply StronglySorted_app. split_and!; [|done|by repeat constructor].
      intros r1 r2 Hr1 ->%list_elem_of_singleton.
      destruct (inv_queued q Hinv r1 Hr1) as (j & Hj%lookup_lt_Some & _). lia.
    + intros r j [Hj|[Hge Hj]]%lookup_app_Some Hs; apply elem_of_app.
      * left. by eapply Hall.
      * right. destruct (r - length (objects q))%nat eqn:Hk; [|done].
        apply list_elem_of_singleton. lia.
  - intros Hget.
    destruct (worker_get_Some w q q' Hinv Hget)
      as (r & items & j & Hw & Hq & Hj & Hs & ->). simpl.
    rewrite Hq in Hsort. apply StronglySorted_cons in Hsort as [Hlt Hsort].
    split; [done|].
    intros r0 j0 [(-> & <- & _)|[Hne H0]]%list_lookup_insert_Some Hs0; [done|].
    specialize (Hall r0 j0 H0 Hs0). rewrite Hq in Hall.
    by apply elem_of_cons in Hall as [?|?].
  - intros Hres.
    destruct (worker_resume_Some false w q q' Hinv Hres)
      as (r & j & j' & exc & n & Hw & Hj & Hs & Htry & Hn & ->). simpl.
    split; [done|].
    intros r0 j0 [(-> & <- & _)|[Hne H0]]%list_lookup_insert_Some Hs0;
      [|by eapply Hall].
    pose proof (try_process_transition _ _ _ _ Hs Htry) as Htr.
    destruct Htr as [->|[(? & ->)|[(_ & v & ->)|(_ & msg & ->)]]];
      simpl in Hs0; congruence.
Qed.

Lemma reachable_fifo q :
  reachable uuid4 q →
  StronglySorted lt (queue q)
  ∧ (∀ r j, objects q !! r = Some j → status j = Queued → r ∈ queue q).
Proof.
  intros [es Hrun].
  assert (worker_inv (new_queue (float:=float))
          ∧ StronglySorted lt (queue (new_queue (float:=float)))
          ∧ ∀ r j, objects (new_queue (float:=float)) !! r = Some j →
                   status j = Queued → r ∈ queue (new_queue (float:=float)))
    as Hinit by (split_and!; [apply new_queue_inv | constructor | done]).
  revert Hinit Hrun. generalize (new_queue (float:=float)).
  induction es as [|e es IH]; intros q0 [Hinv Hfifo]; simpl.
  - by intros [= <-].
  - destruct (step uuid4 e q0) as [q1|] eqn:Hstep; simpl; [|done].
    apply IH. split; [by eapply step_inv | by eapply step_fifo].
Qed.

(** X13. The channel is first in, first out. In every reachable state it
    lists exactly the Jobs that are queued, in the order [enqueue] created
    them; so the Job a worker takes is the oldest Job still queued. *)
Theorem workers_take_oldest_queued_job q :
  reachable uuid4 q →
  StronglySorted lt (queue q)
  ∧ (∀ r j, objects q !! r = Some j → (status j = Queued ↔ r ∈ queue q))
  ∧ (∀ w q', step uuid4 (Get w) q = Some q' →
       ∃ r, _workers q' !! w = Some (Working r)
            ∧ ∀ r0 j0, objects q !! r0 = Some j0 → status j0 = Queued →
                       (r ≤ r0)%nat).
Proof.
  intros Hreach. destruct (reachable_fifo q Hreach) as [Hsort Hall].
  destruct (reachable_inv uuid4 q Hreach) as [Hinv _].
  split_and!; [done| |].
  - intros r j Hj. split; [by apply Hall|].
    intros Hin. destruct (inv_queued q Hinv r Hin) as (j' & Hj' & Hs). congruence.
  - intros w q' Hget. simpl in Hget.
    destruct (worker_get_Some w q q' Hinv Hget)
      as (r & items & j & Hw & Hq & Hj & Hs & ->). simpl.
    exists r. split.
    + rewrite list_lookup_insert_eq; [done|]. by eapply lookup_lt_Some.
    + intros r0 j0 H0 Hs0. specialize (Hall r0 j0 H0 Hs0).
      rewrite Hq in Hall, Hsort.
      apply StronglySorted_cons in Hsort as [Hlt _].
      apply elem_of_cons in Hall as [->|Hin]; [done|].
      rewrite Forall_forall in Hlt. specialize (Hlt r0 Hin). lia.
Qed.

(** X14. In every reachable state a Job is held by at most one worker, the
    Job a worker holds is in [processing], and the channel's count of
    unfinished tasks is the number of Jobs waiting in it plus the number of
    Jobs held by workers -- so the [task_done] of a worker never raises. *)
Theorem workers_hold_distinct_jobs q :
  reachable uuid4 q →
  (∀ w w' r, _workers q !! w = Some (Working r) →
             _workers q !! w' = Some (Working r) → w = w')
  ∧ (∀ w r, _workers q !! w = Some (Working r) →
       (∃ j, objects q !! r = Some j ∧ status j = Processing)
       ∧ ∃ q', task_done q = Ok q')
  ∧ unfinished_tasks q = (length (queue q) + sum_list_with busy (_workers q))%nat.
Proof.
  intros [Hinv _]%reachable_inv. split_and!.
  - apply (inv_working_inj q Hinv).
  - intros w r Hw. split; [by apply (inv_working q Hinv w)|].
    pose proof (busy_insert _ _ _ Finished Hw) as Hbusy.
    pose proof (inv_unfinished q Hinv) as Hu. simpl in Hbusy.
    unfold task_done. destruct (unfinished_tasks q); [lia|]. by eexists.
  - apply (inv_unfinished q Hinv).
Qed.

(** *** After [stop] *)

Lemma stopped_step e q q' :
  worker_inv q → _shutdown q = true →
  (∀ w x, _workers q !! w = Some x → x = Finished) →
  step uuid4 e q = Some q' →
  _shutdown q' = true
  ∧ (∀ w x, _workers q' !! w = Some x → x = Finished)
  ∧ (∀ r j, objects q !! r = Some j → objects q' !! r = Some j)
  ∧ (∀ r j, objects q' !! r = Some j → objects q !! r = None →
            status j = Queued ∧ result j = None ∧ error j = None).
Proof.
  intros Hinv Hsh Hfin. destruct e as [settings| |payload|w|w]; simpl.
  - intros [= <-]. simpl. split_and!; [done| |done|by intros r j ->].
    intros w x [Hw|[_ [-> _]%lookup_replicate]]%lookup_app_Some.
    + by eapply Hfin.
    + unfold loop_entry. by rewrite Hsh.
  - intros [= <-]. destruct (stop_shape q Hinv) as (_ & Hobj & Hsh' & Hfin').
    rewrite Hobj. split_and!; [done|done|done|by intros r j ->].
  - intros [= <-]. simpl. split_and!; [done|done| |].
    + intros r j Hj. by apply lookup_app_l_Some.
    + intros r j [Hj|[_ Hj]]%lookup_app_Some Hnone; [congruence|].
      destruct (r - length (objects q))%nat; [|done]. by injection Hj as <-.
  - unfold worker_get. destruct (_workers q !! w) as [x|] eqn:Hw; [|done].
    by rewrite (Hfin w x Hw).
  - unfold worker_resume. destruct (_workers q !! w) as [x|] eqn:Hw; [|done].
    by rewrite (Hfin w x Hw).
Qed.

Lemma stopped_run es q q' :
  worker_inv q → _shutdown q = true →
  (∀ w x, _workers q !! w = Some x → x = Finished) →
  run uuid4 es q = Some q' →
  (∀ w x, _workers q' !! w = Some x → x = Finished)
  ∧ (∀ r j, objects q !! r = Some j → objects q' !! r = Some j)
  ∧ (∀ r j, objects q' !! r = Some j → objects q !! r = None →
            status j = Queued ∧ result j = None ∧ error j = None).
Proof.
  revert q. induction es as [|e es IH]; intros q Hinv Hsh Hfin; simpl.
  - intros [= <-]. split_and!; [done|done|]. intros r j ->. done.
  - destruct (step uuid4 e q) as [q1|] eqn:Hstep; simpl; [|done]. intros Hrun.
    destruct (stopped_step e q q1 Hinv Hsh Hfin Hstep) as (Hsh1 & Hfin1 & Hold1 & Hnew1).
    destruct (IH q1 (step_inv uuid4 e q q1 Hinv Hstep) Hsh1 Hfin1 Hrun)
      as (Hfin' & Hold' & Hnew').
    split_and!; [done|by auto|].
    intros r j Hj Hnone. destruct (objects q1 !! r) as [j1|] eqn:Hj1.
    + assert (j = j1) as -> by (apply Hold' in Hj1; congruence).
      by apply (Hnew1 r j1).
    + by apply (Hnew' r j).
Qed.

(** X15. After [stop] nothing is processed any more, whatever happens
    next (more calls of [enqueue], of [start], of [stop]): every worker is
    over; every Job keeps the status, result and error it had when [stop]
    was called, so a Job caught in [processing] stays there and a queued
    Job is never taken; and every Job enqueued later stays queued. *)
Theorem nothing_runs_after_stop q es q' :
  reachable uuid4 q → run uuid4 es (stop q) = Some q' →
  (∀ w x, _workers q' !! w = Some x → x = Finished)
  ∧ (∀ r j, objects q !! r = Some j → objects q' !! r = Some j)
  ∧ (∀ r j, objects q' !! r = Some j → objects q !! r = None →
            status j = Queued ∧ result j = None ∧ error j = None).
Proof.
  intros [Hinv _]%reachable_inv Hrun.
  destruct (stop_shape q Hinv) as (Hinv' & Hobj & Hsh & Hfin).
  rewrite <- Hobj. by eapply stopped_run.
Qed.

Lemma stop_stopped q :
  _shutdown q = true → (∀ w x, _workers q !! w = Some x → x = Finished) →
  stop q = q.
Proof.
  intros Hsh Hfin. unfold stop.
  assert ({| objects := objects q; queue := queue q;
             unfinished_tasks := unfinished_tasks q; jobs := jobs q;
             _workers := _workers q; _shutdown := true;
             uuid_calls := uuid_calls q |} = q) as ->
    by (destruct q; simpl in *; by subst).
  generalize (seq 0 (length (_workers q))). intros l.
  induction l as [|w l IH]; simpl; [done|].
  assert (cancel q w = q) as ->; [|done].
  unfold cancel. destruct (_workers q !! w) as [x|] eqn:Hw; [|done].
  by rewrite (Hfin w x Hw).
Qed.

(** X16. Stopping twice is stopping once: in every reachable state,
    [stop] after [stop] changes nothing. *)
Theorem stop_is_idempotent q :
  reachable uuid4 q → stop (stop q) = stop q.
Proof.
  intros [Hinv _]%reachable_inv.
  destruct (stop_shape q Hinv) as (_ & _ & Hsh & Hfin).
  by apply stop_stopped.
Qed.

(** *** Progress *)

(** X17. A worker that holds a Job always finishes it when its sleep
    returns: in every reachable state the transition exists, it leaves the
    Job done or failed -- never processing -- and the worker waiting on
    the channel. *)
Theorem held_job_reaches_terminal_status q w r :
  reachable uuid4 q → _workers q !! w = Some (Working r) →
  ∃ q' j', step uuid4 (Resume w) q = Some q'
           ∧ objects q' !! r = Some j'
           ∧ (status j' = Done ∨ status j' = Failed)
           ∧ _workers q' !! w = Some Waiting.
Proof.
  intros [Hinv Hst]%reachable_inv Hw.
  assert (w < length (_workers q))%nat as Hwlt by (by eapply lookup_lt_Some).
  destruct (inv_working q Hinv w r Hw) as (j & Hj & Hs).
  assert (r < length (objects q))%nat as Hrlt by (by eapply lookup_lt_Some).
  assert (_shutdown q = false) as Hsh.
  { destruct (_shutdown q) eqn:Hsh; [|done]. by specialize (Hst Hsh _ _ Hw). }
  pose proof (busy_insert _ _ _ Finished Hw) as Hbusy.
  pose proof (inv_unfinished q Hinv) as Hu. simpl in Hbusy.
  destruct (unfinished_tasks q) as [|n] eqn:Hn; [lia|].
  simpl. unfold worker_resume. rewrite Hw, Hj. simpl.
  destruct (try_process false j) as [j' exc] eqn:Htry.
  unfold task_done. simpl. rewrite Hn.
  destruct (try_process_cases _ _ _ _ Htry)
    as [(_ & _ & ?)|[(-> & _ & Hp)|(-> & _ & e & _ & ->)]]; [done|..];
    unfold loop_entry; simpl; rewrite Hsh; do 2 eexists;
    (split_and!; [done|by apply list_lookup_insert_eq| |by apply list_lookup_insert_eq]).
  - left. by apply process_Ok in Hp as (v & _ & ->).
  - by right.
Qed.

(** X18. From a new queue, with any settings (a concurrency of 0 or less
    still gives one worker) and any payload: after [start], [enqueue], the
    first worker taking the Job and its sleep returning, [snapshot] shows
    the Job under the first id as done with the sum of the payload, or as
    failed with the message of the exception the sum raises; the channel
    is empty and the worker waits for the next Job. *)
Theorem started_queue_processes_a_job settings payload :
  ∃ q, run uuid4 [Start settings; Enqueue payload; Get 0%nat; Resume 0%nat] new_queue
       = Some q
       ∧ snapshot q !! uuid4 0
         = Some match numeric_sum payload with
                | Ok s => {| entry_status := Done;
                             entry_result := Some (PDict [("sum", s)]);
                             entry_error := None |}
                | Raise exc => {| entry_status := Failed;
                                  entry_result := None;
                                  entry_error := Some (exn_str exc) |}
                end
       ∧ queue q = [] ∧ _workers q !! 0%nat = Some Waiting.
Proof.
  simpl. unfold start, worker_get. simpl.
  destruct (Z.to_nat (Z.max 1 (queue_worker_concurrency settings))) as [|n] eqn:Hn;
    [lia|]. simpl.
  unfold worker_resume, try_process. simpl.
  rewrite process_numeric_sum. simpl.
  destruct (numeric_sum payload) as [s|e] eqn:Hsum; simpl.
  - eexists. split_and!; [done| |done|done].
    rewrite snapshot_lookup. simpl. by rewrite lookup_insert_eq.
  - assert (process (float:=float)
              {| id := uuid4 0; payload := payload; status := Processing;
                 result := None; error := None |} = Raise e) as Hp
      by (by rewrite process_numeric_sum; simpl; rewrite Hsum).
    rewrite (process_raises _ _ Hp). simpl.
    eexists. split_and!; [done| |done|done].
    rewrite snapshot_lookup. simpl. by rewrite lookup_insert_eq.
Qed.

(** X19. No worker ever rewrites what was submitted: along every run, a
    Job keeps the id and the payload it was created with. *)
Theorem jobs_keep_id_and_payload q es q' r j :
  reachable uuid4 q → run uuid4 es q = Some q' →
  objects q !! r = Some j →
  ∃ j', objects q' !! r = Some j' ∧ id j' = id j ∧ payload j' = payload j.
Proof.
  intros [Hinv _]%reachable_inv. revert q j Hinv.
  induction es as [|e es IH]; intros q j Hinv; simpl.
  - intros [= <-] Hj. by exists j.
  - destruct (step uuid4 e q) as [q1|] eqn:Hstep; simpl; [|done].
    intros Hrun Hj.
    destruct (step_objects uuid4 e q q1 Hinv Hstep) as [Hold _].
    destruct (Hold r j Hj) as (j1 & Hj1 & [Hid Hpay]%transition_id).
    destruct (IH q1 j1 (step_inv uuid4 e q q1 Hinv Hstep) Hrun Hj1)
      as (j' & Hj' & Hid' & Hpay').
    exists j'. split_and!; [done|congruence|congruence].
Qed.

(** *** The snapshot *)

Hypothesis uuid4_inj : Inj (=) (=) uuid4.

Lemma step_jobs_size e q q' :
  worker_inv q → registry_inv uuid4 q →
  size (jobs q) = length (objects q) →
  step uuid4 e q = Some q' →
  size (jobs q') = length (objects q').
Proof.
  intros Hinv Hreg Hsize. destruct e as [settings| |payload|w|w]; simpl.
  - by intros [= <-].
  - intros [= <-]. destruct (stop_shape q Hinv) as (_ & -> & _).
    by destruct (stop_registry q) as [-> _].
  - intros [= <-]. simpl. rewrite length_app. simpl.
    rewrite map_size_insert_None; [lia|].
    destruct (jobs q !! uuid4 (uuid_calls q)) as [r0|] eqn:Hl; [|done].
    apply (inv_jobs uuid4 q Hreg) in Hl as [Hlt Heq]. apply uuid4_inj in Heq.
    rewrite (inv_uuid uuid4 q Hreg) in Heq. lia.
  - intros Hget.
    destruct (worker_get_Some w q q' Hinv Hget)
      as (r & items & j & Hw & Hq & Hj & Hs & ->). simpl.
    by rewrite length_insert.
  - intros Hres.
    destruct (worker_resume_Some false w q q' Hinv Hres)
      as (r & j & j' & exc & n & Hw & Hj & Hs & Htry & Hn & ->). simpl.
    by rewrite length_insert.
Qed.

Lemma reachable_jobs_size q :
  reachable uuid4 q → size (jobs q) = length (objects q).
Proof.
  intros [es Hrun].
  assert (worker_inv (new_queue (float:=float))
          ∧ registry_inv uuid4 (new_queue (float:=float))
          ∧ size (jobs (new_queue (float:=float)))
            = length (objects (new_queue (float:=float)))) as Hinit
    by (split_and!; [apply new_queue_inv | by apply new_queue_registry | done]).
  revert Hinit Hrun. generalize (new_queue (float:=float)).
  induction es as [|e es IH]; intros q0 (Hinv & Hreg & Hsize); simpl.
  - by intros [= <-].
  - destruct (step uuid4 e q0) as [q1|] eqn:Hstep; simpl; [|done].
    apply IH. split_and!;
      [by eapply step_inv | by eapply step_registry | by eapply step_jobs_size].
Qed.

(** X20. [snapshot] shows the Jobs and nothing else: in every reachable
    state an id has an entry exactly when a Job with that id has been
    created, the entry's status, result and error are that Job's, and
    there are as many entries as Jobs. *)
Theorem snapshot_shows_exactly_the_jobs q :
  reachable uuid4 q →
  (∀ i e, snapshot q !! i = Some e
          ↔ ∃ r j, objects q !! r = Some j ∧ id j = i
                   ∧ entry_status e = status j
                   ∧ entry_result e = result j
                   ∧ entry_error e = error j)
  ∧ size (snapshot q) = length (objects q).
Proof.
  intros Hreach. pose proof (reachable_registry uuid4 uuid4_inj q Hreach) as Hreg.
  cut ((∀ i e, snapshot q !! i = Some e
               ↔ ∃ r j, objects q !! r = Some j ∧ id j = i ∧ e = entry_of j)
       ∧ size (snapshot q) = length (objects q)).
  { intros [Hiff Hsize]. split; [|done]. intros i e. rewrite Hiff.
    split; intros (r & j & Hj & Hi & He); exists r, j;
      (split_and!; [done|done|..]); by apply entry_of_fields. }
  assert (∀ i e, snapshot q !! i = Some e
                 ↔ ∃ r j, objects q !! r = Some j ∧ id j = i ∧ e = entry_of j)
    as Hiff.
  { intros i e. split.
    - rewrite snapshot_lookup.
      destruct (jobs q !! i) as [r|] eqn:Hi; simpl; [|done].
      destruct (objects q !! r) as [j|] eqn:Hj; simpl; [|done].
      intros [= <-]. exists r, j. split_and!; [done| |done].
      apply (inv_jobs uuid4 q Hreg) in Hi as [_ ->].
      by apply (inv_ids uuid4 q Hreg).
    - intros (r & j & Hj & <- & ->).
      by apply (snapshot_object uuid4 q r j). }
  split; [done|].
  rewrite <- (reachable_jobs_size q Hreach), <- !size_dom.
  f_equal. apply set_eq. intros i. rewrite !elem_of_dom. split.
  - intros [e (r & j & Hj & <- & _)%Hiff].
    exists r. by apply (snapshot_object uuid4 q r j).
  - intros [r Hi]. rewrite snapshot_lookup, Hi. simpl.
    apply (inv_jobs uuid4 q Hreg) in Hi as [Hlt _].
    apply lookup_lt_is_Some in Hlt as [j ->]. by eexists.
Qed.

End QueueProperties.

(** *** The properties at concrete inputs *)

Lemma task_fails_only_on_float_overflow_witness :
  let j : Job spec_float :=
    {| id := "0"; payload := [("a", PFloat (S754_zero false)); ("b", PInt (2 ^ 1024))];
       status := Processing; result := None; error := None |} in
  process j = Raise (OverflowError "int too large to convert to float")
  ∧ Exists (λ v, is_float v = true) (payload j).*2.
Proof.
  intros j.
  assert (process j = Raise (OverflowError "int too large to convert to float"))
    as Hraise by (vm_compute; reflexivity).
  split; [exact Hraise|].
  exact (proj2 (task_fails_only_on_float_overflow j _ Hraise)).
Defined.

Lemma task_on_integers_never_fails_witness :
  let j : Job spec_float :=
    {| id := "0"; payload := [("x", PInt 3); ("y", PInt 4); ("label", PStr "job1")];
       status := Processing; result := None; error := None |} in
  Forall (λ v, is_float v = false) (payload j).*2
  ∧ process j
    = Ok {| id := "0"; payload := payload j; status := Done;
            result := Some (PDict [("sum", PInt 7)]); error := None |}.
Proof.
  intros j.
  assert (Forall (λ v, is_float v = false) (payload j).*2) as Hnf
    by (repeat constructor).
  split; [exact Hnf|].
  exact (task_on_integers_never_fails j Hnf).
Defined.

Lemma jobs_are_settled_witness :
  let q : InMemoryJobQueue spec_float :=
    default new_queue
      (run pretty [Start default_settings; Enqueue [("x", PInt 3); ("y", PInt 4)];
                   Get 0%nat; Resume 0%nat] new_queue) in
  let j := {| id := "0"; payload := [("x", PInt 3); ("y", PInt 4)]; status := Done;
              result := Some (PDict [("sum", PInt 7)]); error := None |} in
  reachable pretty q ∧ objects q !! 0%nat = Some j ∧ settled j.
Proof.
  intros q j.
  assert (reachable pretty q) as Hreach
    by (exists [Start default_settings; Enqueue [("x", PInt 3); ("y", PInt 4)];
                Get 0%nat; Resume 0%nat];
        vm_compute; reflexivity).
  assert (objects q !! 0%nat = Some j) as Hj by (vm_compute; reflexivity).
  split_and!; [exact Hreach|exact Hj|].
  exact (jobs_are_settled pretty q 0%nat j Hreach Hj).
Defined.

Lemma workers_take_oldest_queued_job_witness :
  let q : InMemoryJobQueue spec_float :=
    default new_queue
      (run pretty [Start default_settings; Enqueue [("x", PInt 3)];
                   Enqueue [("y", PInt 4)]; Enqueue []; Get 1%nat] new_queue) in
  reachable pretty q ∧ StronglySorted lt (queue q) ∧ queue q = [1; 2]%nat.
Proof.
  intros q.
  assert (reachable pretty q) as Hreach
    by (exists [Start default_settings; Enqueue [("x", PInt 3)];
                Enqueue [("y", PInt 4)]; Enqueue []; Get 1%nat];
        vm_compute; reflexivity).
  split_and!; [exact Hreach| |vm_compute; reflexivity].
  exact (proj1 (workers_take_oldest_queued_job pretty q Hreach)).
Defined.

Lemma workers_hold_distinct_jobs_witness :
  let q : InMemoryJobQueue spec_float :=
    default new_queue
      (run pretty [Start default_settings; Enqueue [("x", PInt 3)];
                   Enqueue [("y", PInt 4)]; Enqueue []; Get 1%nat; Get 0%nat]
         new_queue) in
  reachable pretty q
  ∧ unfinished_tasks q = (length (queue q) + sum_list_with busy (_workers q))%nat
  ∧ unfinished_tasks q = 3%nat.
Proof.
  intros q.
  assert (reachable pretty q) as Hreach
    by (exists [Start default_settings; Enqueue [("x", PInt 3)];
                Enqueue [("y", PInt 4)]; Enqueue []; Get 1%nat; Get 0%nat];
        vm_compute; reflexivity).
  split_and!; [exact Hreach| |vm_compute; reflexivity].
  exact (proj2 (proj2 (workers_hold_distinct_jobs pretty q Hreach))).
Defined.

Lemma nothing_runs_after_stop_witness :
  let q : InMemoryJobQueue spec_float :=
    default new_queue
      (run pretty [Start default_settings; Enqueue [("x", PInt 3)];
                   Enqueue [("y", PInt 4)]; Get 0%nat] new_queue) in
  let es : list (event spec_float) := [Enqueue []; Start default_settings; Stop] in
  let q' := default new_queue (run pretty es (stop q)) in
  reachable pretty q ∧ run pretty es (stop q) = Some q'
  ∧ (∀ w x, _workers q' !! w = Some x → x = Finished)
  ∧ (∀ r j, objects q !! r = Some j → objects q' !! r = Some j).
Proof.
  intros q es q'.
  assert (reachable pretty q) as Hreach
    by (exists [Start default_settings; Enqueue [("x", PInt 3)];
                Enqueue [("y", PInt 4)]; Get 0%nat];
        vm_compute; reflexivity).
  assert (run pretty es (stop q) = Some q') as Hrun by (vm_compute; reflexivity).
  destruct (nothing_runs_after_stop pretty q es q' Hreach Hrun) as (Hfin & Hold & _).
  split_and!; [exact Hreach|exact Hrun|exact Hfin|exact Hold].
Defined.

Lemma stop_is_idempotent_witness :
  let q : InMemoryJobQueue spec_float :=
    default new_queue
      (run pretty [Start default_settings; Enqueue [("x", PInt 3)]; Get 0%nat]
         new_queue) in
  reachable pretty q ∧ stop (stop q) = stop q.
Proof.
  intros q.
  assert (reachable pretty q) as Hreach
    by (exists [Start default_settings; Enqueue [("x", PInt 3)]; Get 0%nat];
        vm_compute; reflexivity).
  split; [exact Hreach|].
  exact (stop_is_idempotent pretty q Hreach).
Defined.

Lemma held_job_reaches_terminal_status_witness :
  let q : InMemoryJobQueue spec_float :=
    default new_queue
      (run pretty [Start default_settings; Enqueue [("x", PInt 3)]; Get 0%nat]
         new_queue) in
  reachable pretty q ∧ _workers q !! 0%nat = Some (Working 0)
  ∧ ∃ q' j', step pretty (Resume 0%nat) q = Some q'
             ∧ objects q' !! 0%nat = Some j'
             ∧ (status j' = Done ∨ status j' = Failed)
             ∧ _workers q' !! 0%nat = Some Waiting.
Proof.
  intros q.
  assert (reachable pretty q) as Hreach
    by (exists [Start default_settings; Enqueue [("x", PInt 3)]; Get 0%nat];
        vm_compute; reflexivity).
  assert (_workers q !! 0%nat = Some (Working 0)) as Hw by (vm_compute; reflexivity).
  split_and!; [exact Hreach|exact Hw|].
  exact (held_job_reaches_terminal_status pretty q 0%nat 0%nat Hreach Hw).
Defined.

Lemma jobs_keep_id_and_payload_witness :
  let q : InMemoryJobQueue spec_float :=
    default new_queue
      (run pretty [Start default_settings; Enqueue [("x", PInt 3)]] new_queue) in
  let es : list (event spec_float) := [Get 0%nat; Resume 0%nat; Stop] in
  let q' := default new_queue (run pretty es q) in
  let j := {| id := "0"; payload := [("x", PInt 3)]; status := Queued;
              result := None; error := None |} in
  reachable pretty q ∧ run pretty es q = Some q' ∧ objects q !! 0%nat = Some j
  ∧ ∃ j', objects q' !! 0%nat = Some j' ∧ id j' = "0"
          ∧ payload j' = [("x", PInt 3)].
Proof.
  intros q es q' j.
  assert (reachable pretty q) as Hreach
    by (exists [Start default_settings; Enqueue [("x", PInt 3)]];
        vm_compute; reflexivity).
  assert (run pretty es q = Some q') as Hrun by (vm_compute; reflexivity).
  assert (objects q !! 0%nat = Some j) as Hj by (vm_compute; reflexivity).
  split_and!; [exact Hreach|exact Hrun|exact Hj|].
  exact (jobs_keep_id_and_payload pretty q es q' 0%nat j Hreach Hrun Hj).
Defined.

Lemma snapshot_shows_exactly_the_jobs_witness :
  let q : InMemoryJobQueue spec_float :=
    default new_queue
      (run pretty [Start default_settings; Enqueue [("x", PInt 3)];
                   Enqueue [("y", PInt 4)]; Get 0%nat; Resume 0%nat] new_queue) in
  Inj (=) (=) (pretty (A:=nat)) ∧ reachable pretty q
  ∧ snapshot q !! "0"
    = Some {| entry_status := Done;
              entry_result := Some (PDict [("sum", PInt 3)]);
              entry_error := None |}
  ∧ snapshot q !! "1"
    = Some {| entry_status := Queued; entry_result := None; entry_error := None |}
  ∧ size (snapshot q) = length (objects q).
Proof.
  intros q.
  assert (reachable pretty q) as Hreach
    by (exists [Start default_settings; Enqueue [("x", PInt 3)];
                Enqueue [("y", PInt 4)]; Get 0%nat; Resume 0%nat];
        vm_compute; reflexivity).
  split_and!; [exact pretty_nat_inj|exact Hreach| | |].
  - apply (proj1 (snapshot_shows_exactly_the_jobs pretty pretty_nat_inj q Hreach)).
    exists 0%nat,
      {| id := "0"; payload := [("x", PInt 3)]; status := Done;
         result := Some (PDict [("sum", PInt 3)]); error := None |}.
    split_and!; [vm_compute; reflexivity|reflexivity..].
  - apply (proj1 (snapshot_shows_exactly_the_jobs pretty pretty_nat_inj q Hreach)).
    exists 1%nat,
      {| id := "1"; payload := [("y", PInt 4)]; status := Queued;
         result := None; error := None |}.
    split_and!; [vm_compute; reflexivity|reflexivity..].
  - exact (proj2 (snapshot_shows_exactly_the_jobs pretty pretty_nat_inj q Hreach)).
Defined.

End QueueProperties.

(** ** The compute endpoint on the in-process cache *)

Module MainFacts.

Import Settings Caching CachingFacts Main.

Section MainFacts.

Context {float Client Remote : Type} `{!FloatOps float}.
Variable aioredis : option (string → outcome Client).
Variable client_get :
  Client → string → Remote → outcome (option (computed float)) * Remote.
Variable client_set :
  Client → string → computed float → option Z → Remote → outcome () * Remote.
Variable _jsonable : computed float → computed float.

Implicit Types (st : app float Client Remote) (c : MemoryTTLCache (computed float) float).
Implicit Types (now : float).

Lemma lookup_memory settings now key st c :
  _cache st = Some (Memory c) → od_wf (_store c) →
  ∃ c', compute_lookup aioredis client_get _jsonable settings now key false st
        = (Ok match od_lookup key (_store c) with
              | Some e =>
                  if expired now e then Miss Shared
                  else Hit {| r_key := key; r_cached := true;
                              r_value := _jsonable (value e) |}
              | None => Miss Shared
              end,
           {| _cache := Some (Memory c'); remote := remote st |})
        ∧ od_wf (_store c') ∧ _max_items c' = _max_items c.
Proof.
  intros Hc Hwf. unfold compute_lookup, get_cache. rewrite Hc. simpl.
  destruct (get_lookup now key c Hwf) as (c' & -> & Hwf' & HM).
  exists c'. split; [|done].
  destruct (od_lookup key (_store c)) as [e|]; simpl; [|done].
  by destruct (expired now e).
Qed.

Lemma store_memory t_value t_set key ttl st c x :
  _cache st = Some (Memory c) → od_wf (_store c) → 1 ≤ _max_items c →
  expiry_of t_set (Some ttl) = Ok x →
  let e := {| value := {| v_ts := t_value; v_key := key; v_computed := true |};
              expires_at := x |} in
  ∃ d, compute_store client_set t_value t_set key ttl Shared st
       = (Ok {| r_key := key; r_cached := false;
                r_value := {| v_ts := t_value; v_key := key; v_computed := true |} |},
          {| _cache := Some (Memory {| _store := d ++ [(key, e)];
                                       _max_items := _max_items c |});
             remote := remote st |})
       ∧ od_wf d ∧ key ∉ d.*1.
Proof.
  intros Hc Hwf HM Hx e. unfold compute_store, cache_set. rewrite Hc.
  destruct (set_last t_set key {| v_ts := t_value; v_key := key; v_computed := true |}
              (Some ttl) c x Hwf HM Hx) as (d & -> & Hd & Hk).
  by exists d.
Qed.

(** When [set] raises, the handler raises and the backend is as the lookup
    left it. *)
Lemma store_memory_raise t_value t_set key ttl st c :
  _cache st = Some (Memory c) →
  ¬ ttl_fits (float:=float) (Some ttl) →
  compute_store client_set t_value t_set key ttl Shared st
  = (Raise (OverflowError "int too large to convert to float"), st).
Proof.
  intros Hc Hfit. unfold compute_store, cache_set. rewrite Hc.
  by rewrite (set_raise _ _ _ _ _ _ (expiry_of_unfit t_set (Some ttl) Hfit)).
Qed.

(** The expiry instant of an entry, in terms of the ttl it was set with. *)
Lemma expiry_lapsed t_set ttl x now :
  expiry_of t_set (Some ttl) = Ok x →
  match x with Some t => float_le t now | None => false end
  = match (if decide (ttl = 0) then None else float_of_int ttl) with
    | Some ft => float_le (float_add t_set ft) now
    | None => false
    end.
Proof.
  rewrite expiry_of_cases. case_decide; [by intros [= <-]|].
  destruct (float_of_int ttl); [by intros [= <-]|done].
Qed.

(** The request that follows a store of the key. *)
Lemma request_after_store settings key t_value x d (M : Z) rem
    now2 tv2 ts2 ttl2 :
  od_wf d → key ∉ d.*1 → 1 ≤ M →
  ttl_fits (float:=float) (Some ttl2) →
  let v := {| v_ts := t_value; v_key := key; v_computed := true |} in
  let st1 : app float Client Remote :=
    {| _cache := Some (Memory {| _store := d ++ [(key, {| value := v;
                                                           expires_at := x |})];
                                 _max_items := M |});
       remote := rem |} in
  ∃ st2,
    compute_and_cache aioredis client_get client_set _jsonable
      settings now2 tv2 ts2 key ttl2 false st1
    = (Ok (if match x with Some t => float_le t now2 | None => false end
           then {| r_key := key; r_cached := false;
                   r_value := {| v_ts := tv2; v_key := key; v_computed := true |} |}
           else {| r_key := key; r_cached := true; r_value := _jsonable v |}), st2).
Proof.
  intros Hd Hk HM Hfit v st1. unfold compute_and_cache.
  edestruct (lookup_memory settings now2 key st1) as (c2 & -> & Hwf2 & HM2);
    [done|by apply od_wf_snoc|].
  simpl. rewrite od_lookup_snoc by done.
  unfold expired. simpl.
  destruct (match x with Some t => float_le t now2 | None => false end);
    [|by eexists].
  destruct (expiry_of_fits ts2 (Some ttl2) Hfit) as [x2 Hx2].
  edestruct (store_memory tv2 ts2 key ttl2
               {| _cache := Some (Memory c2); remote := rem |} c2 x2)
    as (d2 & -> & _); [done|done|simpl in *; lia|done|].
  by eexists.
Qed.

(** X21. On the in-process backend with room for one entry, a request
    for a key whose ttl is zero or converts to a float never fails, and its
    answer says whether it was served from the cache. When it was not, the
    value it computed is what the next request for the key gets, marked as
    cached, as long as the float sum of the set time and the ttl is not
    [<=] that request's clock, or the ttl is 0; from then on (at once for
    a negative ttl) the next request computes a new value. A request with
    a ttl too large for a float, for a key that is not stored, raises
    [OverflowError] and stores nothing: the next request misses as well. *)
Theorem second_request_is_served_from_cache
    settings now t_value t_set key ttl st c :
  _cache st = Some (Memory c) → od_wf (_store c) → 1 ≤ _max_items c →
  (ttl_fits (float:=float) (Some ttl) →
   ∃ resp1 st1,
     compute_and_cache aioredis client_get client_set _jsonable
       settings now t_value t_set key ttl false st = (Ok resp1, st1)
     ∧ r_key resp1 = key
     ∧ (r_cached resp1 = false →
        r_value resp1 = {| v_ts := t_value; v_key := key; v_computed := true |}
        ∧ ∀ now2 tv2 ts2 ttl2,
            ttl_fits (float:=float) (Some ttl2) →
            ∃ st2,
              compute_and_cache aioredis client_get client_set _jsonable
                settings now2 tv2 ts2 key ttl2 false st1
              = (Ok (if match (if decide (ttl = 0) then None else float_of_int ttl) with
                        | Some ft => float_le (float_add t_set ft) now2
                        | None => false
                        end
                     then {| r_key := key; r_cached := false;
                             r_value := {| v_ts := tv2; v_key := key;
                                           v_computed := true |} |}
                     else {| r_key := key; r_cached := true;
                             r_value := _jsonable (r_value resp1) |}), st2)))
  ∧ (¬ ttl_fits (float:=float) (Some ttl) →
     key ∉ (_store c).*1 →
     ∃ st1,
       compute_and_cache aioredis client_get client_set _jsonable
         settings now t_value t_set key ttl false st
       = (Raise (OverflowError "int too large to convert to float"), st1)
       ∧ ∀ now2, ∃ st2,
           compute_lookup aioredis client_get _jsonable settings now2 key false st1
           = (Ok (Miss Shared), st2)).
Proof.
  intros Hc Hwf HM. split.
  - intros Hfit. destruct (expiry_of_fits t_set (Some ttl) Hfit) as [x Hx].
    assert (∀ c', od_wf (_store c') → _max_items c' = _max_items c →
              ∃ resp1 st1,
                compute_store client_set t_value t_set key ttl Shared
                  {| _cache := Some (Memory c'); remote := remote st |} = (Ok resp1, st1)
                ∧ r_key resp1 = key
                ∧ (r_cached resp1 = false →
                   r_value resp1 = {| v_ts := t_value; v_key := key; v_computed := true |}
                   ∧ ∀ now2 tv2 ts2 ttl2,
                       ttl_fits (float:=float) (Some ttl2) →
                       ∃ st2,
                         compute_and_cache aioredis client_get client_set _jsonable
                           settings now2 tv2 ts2 key ttl2 false st1
                         = (Ok (if match (if decide (ttl = 0) then None
                                          else float_of_int ttl) with
                                   | Some ft => float_le (float_add t_set ft) now2
                                   | None => false
                                   end
                                then {| r_key := key; r_cached := false;
                                        r_value := {| v_ts := tv2; v_key := key;
                                                      v_computed := true |} |}
                                else {| r_key := key; r_cached := true;
                                        r_value := _jsonable (r_value resp1) |}), st2)))
      as Hstore.
    { intros c' Hwf' HM'.
      edestruct (store_memory t_value t_set key ttl
                   {| _cache := Some (Memory c'); remote := remote st |} c' x)
        as (d & -> & Hd & Hk); [done|done|lia|done|].
      do 2 eexists. split_and!; [done|done|]. intros _. split; [done|].
      intros now2 tv2 ts2 ttl2 Hfit2. simpl.
      rewrite <- (expiry_lapsed t_set ttl x now2 Hx).
      apply (request_after_store settings key t_value x d); [done|done|lia|done]. }
    unfold compute_and_cache.
    destruct (lookup_memory settings now key st c Hc Hwf) as (c' & -> & Hwf' & HM').
    destruct (od_lookup key (_store c)) as [e0|] eqn:Hl;
      [destruct (expired now e0) eqn:He0|].
    + by apply Hstore.
    + do 2 eexists. split_and!; [done|done|done].
    + by apply Hstore.
  - intros Hfit Hk. unfold compute_and_cache.
    assert (compute_lookup aioredis client_get _jsonable settings now key false st
            = (Ok (Miss Shared),
               {| _cache := Some (Memory {| _store := live now (_store c);
                                            _max_items := _max_items c |});
                  remote := remote st |})) as ->.
    { unfold compute_lookup, get_cache. rewrite Hc. simpl.
      rewrite get_live by done.
      assert (od_lookup key (live now (_store c)) = None) as ->; [|done].
      apply od_lookup_None. intros Hin. apply Hk.
      eapply elem_of_sublist; [exact Hin|]. apply fmap_sublist, sublist_filter. }
    rewrite (store_memory_raise _ _ _ _ _
               {| _store := live now (_store c); _max_items := _max_items c |})
      by done.
    eexists. split; [done|]. intros now2.
    edestruct (lookup_memory settings now2 key
                 {| _cache := Some (Memory {| _store := live now (_store c);
                                              _max_items := _max_items c |});
                    remote := remote st |}) as (c2 & -> & _);
      [done|by apply live_wf|].
    simpl.
    assert (od_lookup key (live now (_store c)) = None) as ->; [|by eexists].
    apply od_lookup_None. intros Hin. apply Hk.
    eapply elem_of_sublist; [exact Hin|]. apply fmap_sublist, sublist_filter.
Qed.

Lemma lookup_memory_miss settings now key st c stA :
  _cache st = Some (Memory c) → od_wf (_store c) →
  compute_lookup aioredis client_get _jsonable settings now key false st
  = (Ok (Miss Shared), stA) →
  stA = {| _cache := Some (Memory {| _store := live now (_store c);
                                     _max_items := _max_items c |});
           remote := remote st |}
  ∧ od_lookup key (live now (_store c)) = None.
Proof.
  intros Hc Hwf. unfold compute_lookup, get_cache. rewrite Hc. simpl.
  rewrite get_live by done.
  destruct (od_lookup key (live now (_store c))) as [e|]; [done|].
  by intros [= <-].
Qed.

(** X22. Requests are not coalesced: when a second request for a missing
    key arrives while the first one is still computing, it misses too and
    computes its own value. When the ttl of each is zero or converts to a
    float, both store, and the value stored last is the one later requests
    are served, for as long as its own ttl allows. When the ttl of the first
    is too large for a float, its [set] raises [OverflowError] and leaves
    the backend as it was. *)
Theorem overlapping_requests_both_compute
    settings key st c nowA nowB tvA tsA ttlA tvB tsB ttlB stA :
  _cache st = Some (Memory c) → od_wf (_store c) → 1 ≤ _max_items c →
  compute_lookup aioredis client_get _jsonable settings nowA key false st
  = (Ok (Miss Shared), stA) →
  ∃ stB,
    compute_lookup aioredis client_get _jsonable settings nowB key false stA
    = (Ok (Miss Shared), stB)
    ∧ (ttl_fits (float:=float) (Some ttlA) →
       ttl_fits (float:=float) (Some ttlB) →
       ∃ st1 st2,
         compute_store client_set tvA tsA key ttlA Shared stB
         = (Ok {| r_key := key; r_cached := false;
                  r_value := {| v_ts := tvA; v_key := key; v_computed := true |} |}, st1)
         ∧ compute_store client_set tvB tsB key ttlB Shared st1
           = (Ok {| r_key := key; r_cached := false;
                    r_value := {| v_ts := tvB; v_key := key; v_computed := true |} |},
              st2)
         ∧ ∀ now3 tv3 ts3 ttl3,
             ttl_fits (float:=float) (Some ttl3) →
             ∃ st3,
               compute_and_cache aioredis client_get client_set _jsonable
                 settings now3 tv3 ts3 key ttl3 false st2
               = (Ok (if match (if decide (ttlB = 0) then None
                                else float_of_int ttlB) with
                         | Some ft => float_le (float_add tsB ft) now3
                         | None => false
                         end
                      then {| r_key := key; r_cached := false;
                              r_value := {| v_ts := tv3; v_key := key;
                                            v_computed := true |} |}
                      else {| r_key := key; r_cached := true;
                              r_value := _jsonable {| v_ts := tvB; v_key := key;
                                                      v_computed := true |} |}), st3))
    ∧ (¬ ttl_fits (float:=float) (Some ttlA) →
       compute_store client_set tvA tsA key ttlA Shared stB
       = (Raise (OverflowError "int too large to convert to float"), stB)).
Proof.
  intros Hc Hwf HM HA.
  destruct (lookup_memory_miss settings nowA key st c stA Hc Hwf HA) as [-> HlA].
  set (cA := {| _store := live nowA (_store c); _max_items := _max_items c |}).
  assert (od_wf (_store cA)) as HwfA by (by apply live_wf).
  edestruct (lookup_memory settings nowB key
               {| _cache := Some (Memory cA); remote := remote st |} cA)
    as (cB & HB & HwfB & HMB); [done|done|].
  simpl in HB. rewrite HlA in HB.
  eexists. split_and!; [exact HB| |].
  - intros HfitA HfitB.
    destruct (expiry_of_fits tsA (Some ttlA) HfitA) as [xA HxA].
    destruct (expiry_of_fits tsB (Some ttlB) HfitB) as [xB HxB].
    edestruct (store_memory tvA tsA key ttlA
                 {| _cache := Some (Memory cB); remote := remote st |} cB xA)
      as (d1 & H1 & Hd1 & Hk1); [done|done|simpl in *; lia|done|].
    simpl in H1.
    set (c1 := {| _store :=
                    d1 ++ [(key, {| value := {| v_ts := tvA; v_key := key;
                                                v_computed := true |};
                                    expires_at := xA |})];
                  _max_items := _max_items cB |}) in *.
    edestruct (store_memory tvB tsB key ttlB
                 {| _cache := Some (Memory c1); remote := remote st |} c1 xB)
      as (d2 & H2 & Hd2 & Hk2); [done|by apply od_wf_snoc|simpl in *; lia|done|].
    do 2 eexists. split_and!; [exact H1|exact H2|].
    intros now3 tv3 ts3 ttl3 Hfit3. simpl.
    rewrite <- (expiry_lapsed tsB ttlB xB now3 HxB).
    apply (request_after_store settings key tvB xB d2); [done|done| |done].
    simpl in *. lia.
  - intros HfitA. by apply (store_memory_raise _ _ _ _ _ cB).
Qed.

End MainFacts.

(** *** The properties at concrete inputs: no Redis library, an
    in-process cache of the default size, orjson absent, binary64 *)

Lemma second_request_is_served_from_cache_witness :
  let st : app spec_float unit unit :=
    {| _cache := Some (Memory (new_cache 1024)); remote := () |} in
  _cache st = Some (Memory (new_cache 1024))
  ∧ od_wf (_store (new_cache (V:=computed spec_float) (float:=spec_float) 1024))
  ∧ 1 ≤ 1024
  ∧ ttl_fits (float:=spec_float) (Some 60)
  ∧ ¬ ttl_fits (float:=spec_float) (Some (10 ^ 400))
  ∧ (∃ resp1 st1,
       compute_and_cache None (λ _ _ w, (Ok None, w)) (λ _ _ _ _ w, (Ok (), w)) (λ v, v)
         default_settings (binary64 100) (binary64 101) (binary64 102) "k" 60 false st
       = (Ok resp1, st1)
       ∧ r_key resp1 = "k")
  ∧ (∃ st1,
       compute_and_cache None (λ _ _ w, (Ok None, w)) (λ _ _ _ _ w, (Ok (), w)) (λ v, v)
         default_settings (binary64 100) (binary64 101) (binary64 102) "k" (10 ^ 400)
         false st
       = (Raise (OverflowError "int too large to convert to float"), st1)).
Proof.
  intros st.
  assert (_cache st = Some (Memory (new_cache 1024))) as Hc by reflexivity.
  assert (od_wf (_store (new_cache (V:=computed spec_float) (float:=spec_float) 1024)))
    as Hwf by apply NoDup_nil_2.
  assert (1 ≤ 1024) as HM by lia.
  assert (ttl_fits (float:=spec_float) (Some 60)) as H60
    by (intros t [= <-] _; vm_compute; by eexists).
  assert (¬ ttl_fits (float:=spec_float) (Some (10 ^ 400))) as Hbig.
  { intros Hfit. destruct (Hfit _ eq_refl) as [f Hf]; [done|].
    vm_compute in Hf. discriminate Hf. }
  split_and!; [exact Hc|exact Hwf|exact HM|exact H60|exact Hbig| |].
  - destruct (proj1 (second_request_is_served_from_cache
                None (λ _ _ w, (Ok None, w)) (λ _ _ _ _ w, (Ok (), w)) (λ v, v)
                default_settings (binary64 100) (binary64 101) (binary64 102) "k" 60
                st (new_cache 1024) Hc Hwf HM) H60)
      as (resp1 & st1 & Hcall & Hkey & _).
    exists resp1, st1. split; [exact Hcall|exact Hkey].
  - destruct (proj2 (second_request_is_served_from_cache
                None (λ _ _ w, (Ok None, w)) (λ _ _ _ _ w, (Ok (), w)) (λ v, v)
                default_settings (binary64 100) (binary64 101) (binary64 102) "k"
                (10 ^ 400) st (new_cache 1024) Hc Hwf HM) Hbig)
      as (st1 & Hcall & _).
    { apply not_elem_of_nil. }
    exists st1. exact Hcall.
Defined.

Lemma overlapping_requests_both_compute_witness :
  let st : app spec_float unit unit :=
    {| _cache := Some (Memory (new_cache 1024)); remote := () |} in
  _cache st = Some (Memory (new_cache 1024))
  ∧ od_wf (_store (new_cache (V:=computed spec_float) (float:=spec_float) 1024))
  ∧ 1 ≤ 1024
  ∧ compute_lookup None (λ _ _ w, (Ok None, w)) (λ v, v)
      default_settings (binary64 100) "k" false st = (Ok (Miss Shared), st)
  ∧ ∃ stB, compute_lookup None (λ _ _ w, (Ok None, w)) (λ v, v)
             default_settings (binary64 101) "k" false st = (Ok (Miss Shared), stB).
Proof.
  intros st.
  assert (_cache st = Some (Memory (new_cache 1024))) as Hc by reflexivity.
  assert (od_wf (_store (new_cache (V:=computed spec_float) (float:=spec_float) 1024)))
    as Hwf by apply NoDup_nil_2.
  assert (1 ≤ 1024) as HM by lia.
  assert (compute_lookup None (λ _ _ w, (Ok None, w)) (λ v, v)
            default_settings (binary64 100) "k" false st = (Ok (Miss Shared), st)) as HA
    by reflexivity.
  split_and!; [exact Hc|exact Hwf|exact HM|exact HA|].
  destruct (overlapping_requests_both_compute
              None (λ _ _ w, (Ok None, w)) (λ _ _ _ _ w, (Ok (), w)) (λ v, v)
              default_settings "k" st (new_cache 1024)
              (binary64 100) (binary64 101) (binary64 102) (binary64 103) 60
              (binary64 104) (binary64 105) 60 st
              Hc Hwf HM HA) as (stB & HB & _).
  exists stB. exact HB.
Defined.

End MainFacts.
